(** * Section extraction and text cleaning of the 10-K pipeline

    Shallow embedding of [src/processors/parser.py] ([TenKParser]) and
    [src/processors/text_cleaner.py] ([TextCleaner]).

    Strings are lists of characters.  A character is an [ascii] value read
    as a code point in 0..255 (Latin-1); the character classes [\s], [\d],
    [\w] and [str.lower] below follow Python 3 on that range.

    The [re] module is embedded as a backtracking matcher: [mt r z] lists
    the end positions of the matches of [r] starting at [z], in the order
    in which Python's engine tries them (greedy repetition, alternatives
    left to right), so the head of the list is the match Python reports. *)

From Stdlib Require Import Ascii String Bool Arith Lia ZArith NArith List.
From Stdlib Require Import Sorted Permutation.
Import ListNotations.

Open Scope list_scope.

(** ** Characters *)

Definition code (c : ascii) : N := N_of_ascii c.

Definition in_range (lo hi : N) (c : ascii) : bool :=
  (lo <=? code c)%N && (code c <=? hi)%N.

(** [str.isspace] / regex [\s] *)
Definition is_space (c : ascii) : bool :=
  in_range 9 13 c || in_range 28 32 c || (code c =? 133)%N || (code c =? 160)%N.

(** regex [\d] *)
Definition is_digit (c : ascii) : bool := in_range 48 57 c.

Definition is_upper (c : ascii) : bool :=
  in_range 65 90 c || (in_range 192 222 c && negb (code c =? 215)%N).

(** [str.lower], one character *)
Definition lower (c : ascii) : ascii :=
  if is_upper c then ascii_of_N (code c + 32) else c.

Definition lower_str (s : list ascii) : list ascii := map lower s.

(** regex [\w]: [str.isalnum] or underscore *)
Definition is_word (c : ascii) : bool :=
  is_digit c || in_range 65 90 c || in_range 97 122 c || (code c =? 95)%N
  || (code c =? 170)%N || in_range 178 179 c || (code c =? 181)%N
  || in_range 185 186 c || in_range 188 190 c
  || in_range 192 214 c || in_range 216 246 c || in_range 248 255 c.

Definition nl : ascii := "010"%char.
Definition tab : ascii := "009"%char.
Definition sp : ascii := " "%char.

Definition str (s : string) : list ascii := list_ascii_of_string s.

(** ** Regular expressions *)

Inductive re : Type :=
| RClass (p : ascii -> bool)
| RSeq (r1 r2 : re)
| RAlt (r1 r2 : re)
| RStar (r : re)
| RLazy (r : re)  (** non-greedy [*?] *)
| REps
| RBol    (** [^] under [re.MULTILINE] *)
| REol.   (** [$] under [re.MULTILINE] *)

(** A position in the subject string: the characters before it (reversed),
    the characters after it, its index and the number of characters left. *)
Record pos := Pos { before : list ascii; after : list ascii; idx : nat; rem : nat }.

Definition start_pos (s : list ascii) : pos := Pos [] s 0 (length s).

Definition adv (z : pos) (c : ascii) (t : list ascii) : pos :=
  Pos (c :: before z) t (S (idx z)) (pred (rem z)).

(** Greedy repetition: one more iteration first (only if it consumed
    input), then stopping.  The fuel bounds the number of iterations,
    which never exceeds the number of characters left. *)
Fixpoint star_iter (f : pos -> list pos) (fuel : nat) (z : pos) : list pos :=
  match fuel with
  | 0 => [z]
  | S k =>
      flat_map (fun z' => if idx z <? idx z' then star_iter f k z' else []) (f z)
      ++ [z]
  end.

(** Non-greedy repetition: stopping first, then one more iteration. *)
Fixpoint lazy_iter (f : pos -> list pos) (fuel : nat) (z : pos) : list pos :=
  match fuel with
  | 0 => [z]
  | S k =>
      z :: flat_map (fun z' => if idx z <? idx z' then lazy_iter f k z' else []) (f z)
  end.

Fixpoint mt (r : re) (z : pos) : list pos :=
  match r with
  | RClass p =>
      match after z with
      | c :: t => if p c then [adv z c t] else []
      | [] => []
      end
  | RSeq r1 r2 => flat_map (mt r2) (mt r1 z)
  | RAlt r1 r2 => mt r1 z ++ mt r2 z
  | RStar r1 => star_iter (mt r1) (S (rem z)) z
  | RLazy r1 => lazy_iter (mt r1) (S (rem z)) z
  | REps => [z]
  | RBol =>
      match before z with
      | [] => [z]
      | c :: _ => if Ascii.eqb c nl then [z] else []
      end
  | REol =>
      match after z with
      | [] => [z]
      | c :: _ => if Ascii.eqb c nl then [z] else []
      end
  end.

(** Leftmost match at or after [z]: its start and end positions. *)
Fixpoint search_aux (r : re) (b a : list ascii) (i n : nat) : option (pos * pos) :=
  let z := Pos b a i n in
  match mt r z with
  | e :: _ => Some (z, e)
  | [] =>
      match a with
      | c :: t => search_aux r (c :: b) t (S i) (pred n)
      | [] => None
      end
  end.

Definition search_pos (r : re) (z : pos) : option (pos * pos) :=
  search_aux r (before z) (after z) (idx z) (rem z).

(** [re.search(r, s)]: [Some (start, end)] of the match. *)
Definition re_search (r : re) (s : list ascii) : option (nat * nat) :=
  match search_pos r (start_pos s) with
  | Some (b, e) => Some (idx b, idx e)
  | None => None
  end.

(** [re.finditer(r, s)] as the list of [(m.start(), m.end())].  None of the
    patterns of the program matches the empty string; after an empty match
    the scan moves on by one character. *)
Fixpoint finditer_aux (fuel : nat) (r : re) (z : pos) : list (nat * nat) :=
  match fuel with
  | 0 => []
  | S k =>
      match search_pos r z with
      | None => []
      | Some (b, e) =>
          (idx b, idx e) ::
          (if idx b <? idx e then finditer_aux k r e
           else match after e with
                | c :: t => finditer_aux k r (adv e c t)
                | [] => []
                end)
      end
  end.

Definition finditer (r : re) (s : list ascii) : list (nat * nat) :=
  finditer_aux (S (length s)) r (start_pos s).

(** [re.sub(r, repl, s)] *)
Fixpoint sub_aux (fuel : nat) (r : re) (repl : list ascii) (z : pos) : list ascii :=
  match fuel with
  | 0 => after z
  | S k =>
      match search_pos r z with
      | None => after z
      | Some (b, e) =>
          firstn (idx b - idx z) (after z) ++ repl ++
          (if idx b <? idx e then sub_aux k r repl e
           else match after e with
                | c :: t => c :: sub_aux k r repl (adv e c t)
                | [] => []
                end)
      end
  end.

Definition re_sub (r : re) (repl s : list ascii) : list ascii :=
  sub_aux (S (length s)) r repl (start_pos s).

(** *** Pattern syntax *)

Definition chr (x : ascii) : re := RClass (fun c => Ascii.eqb c x).
(** a literal character under [re.IGNORECASE] *)
Definition chr_i (x : ascii) : re := RClass (fun c => Ascii.eqb (lower c) x).
Definition lit_i (s : string) : re :=
  fold_right (fun x r => RSeq (chr_i x) r) REps (str s).
Definition plus (r : re) : re := RSeq r (RStar r).
Definition opt (r : re) : re := RAlt r REps.
Fixpoint seqs (l : list re) : re :=
  match l with
  | [] => REps
  | [r] => r
  | r :: l' => RSeq r (seqs l')
  end.

Definition S_ : re := RClass is_space.              (** [\s] *)
Definition D_ : re := RClass is_digit.              (** [\d] *)
Definition dot_colon_s : re :=                      (** [[\.\:\s]] *)
  RClass (fun c => Ascii.eqb c "."%char || Ascii.eqb c ":"%char || is_space c).
Definition dot_s : re :=                            (** [[\.\s]] *)
  RClass (fun c => Ascii.eqb c "."%char || is_space c).
(** [[\-\—]]: the em dash lies outside the Latin-1 range *)
Definition dash : re := RClass (fun c => Ascii.eqb c "-"%char).

Definition ws0 : re := RStar S_.                    (** [\s*] *)
Definition ws1 : re := plus S_.                     (** [\s+] *)
Definition nls : re := plus (chr_i nl).             (** [\n+] *)

(** ** [TenKParser] *)

Inductive section := Item1 | Item1a | Item7.

(** [SECTION_PATTERNS] (all used with [re.IGNORECASE]) *)
Definition section_patterns (sec : section) : list re :=
  match sec with
  | Item1 =>
      [ (* one of "item\s*1[\.\:\s]+" or "item\s*1\s*[\-\—]\s*",
           then one of "business" or "description\s+of\s+business" *)
        seqs [RAlt (seqs [lit_i "item"; ws0; chr_i "1"; plus dot_colon_s])
                   (seqs [lit_i "item"; ws0; chr_i "1"; ws0; dash; ws0]);
              RAlt (lit_i "business")
                   (seqs [lit_i "description"; ws1; lit_i "of"; ws1; lit_i "business"])];
        (* ">\s*item\s*1[\.\:\s]" *)
        seqs [chr_i ">"; ws0; lit_i "item"; ws0; chr_i "1"; dot_colon_s];
        (* "item\s*1[\.\s]+business" *)
        seqs [lit_i "item"; ws0; chr_i "1"; plus dot_s; lit_i "business"];
        (* "item\s+1\s*\n+\s*business" *)
        seqs [lit_i "item"; ws1; chr_i "1"; ws0; nls; ws0; lit_i "business"];
        (* "part\s+i\s*\n+\s*item\s*1" *)
        seqs [lit_i "part"; ws1; chr_i "i"; ws0; nls; ws0; lit_i "item"; ws0; chr_i "1"] ]
  | Item1a =>
      [ (* one of "item\s*1a[\.\:\s]+" or "item\s*1a\s*[\-\—]\s*",
           then "risk\s*factors?" *)
        seqs [RAlt (seqs [lit_i "item"; ws0; lit_i "1a"; plus dot_colon_s])
                   (seqs [lit_i "item"; ws0; lit_i "1a"; ws0; dash; ws0]);
              seqs [lit_i "risk"; ws0; lit_i "factor"; opt (chr_i "s")]];
        (* ">\s*item\s*1a[\.\:\s]" *)
        seqs [chr_i ">"; ws0; lit_i "item"; ws0; lit_i "1a"; dot_colon_s];
        (* "item\s*1a[\.\s]+risk" *)
        seqs [lit_i "item"; ws0; lit_i "1a"; plus dot_s; lit_i "risk"];
        (* "item\s+1a\s*\n+\s*risk" *)
        seqs [lit_i "item"; ws1; lit_i "1a"; ws0; nls; ws0; lit_i "risk"] ]
  | Item7 =>
      [ (* one of "item\s*7[\.\:\s]+" or "item\s*7\s*[\-\—]\s*",
           then one of "management", "md&a" or "discussion" *)
        seqs [RAlt (seqs [lit_i "item"; ws0; chr_i "7"; plus dot_colon_s])
                   (seqs [lit_i "item"; ws0; chr_i "7"; ws0; dash; ws0]);
              RAlt (lit_i "management") (RAlt (lit_i "md&a") (lit_i "discussion"))];
        (* ">\s*item\s*7[\.\:\s]" *)
        seqs [chr_i ">"; ws0; lit_i "item"; ws0; chr_i "7"; dot_colon_s];
        (* "item\s*7[\.\s]+management" *)
        seqs [lit_i "item"; ws0; chr_i "7"; plus dot_s; lit_i "management"];
        (* "item\s+7\s*\n+\s*management" *)
        seqs [lit_i "item"; ws1; chr_i "7"; ws0; nls; ws0; lit_i "management"];
        (* "item\s*7[\.\s]+management'?s?\s+discussion" *)
        seqs [lit_i "item"; ws0; chr_i "7"; plus dot_s; lit_i "management";
              opt (chr_i "'"); opt (chr_i "s"); ws1; lit_i "discussion"] ]
  end.

(** [\n\s*item\s*<x>[\.\:\s]+] *)
Definition end_header (x : string) : re :=
  seqs [chr_i nl; ws0; lit_i "item"; ws0; lit_i x; plus dot_colon_s].

(** [SECTION_END_PATTERNS] *)
Definition section_end_patterns (sec : section) : list re :=
  match sec with
  | Item1 => [end_header "1a"; end_header "1b"; end_header "2"]
  | Item1a => [end_header "1b"; end_header "2"]
  | Item7 => [end_header "7a"; end_header "8"]
  end.

(** [\n\s*item\s*\d], the relaxed end marker of the fallback *)
Definition any_item_marker : re := seqs [chr_i nl; ws0; lit_i "item"; ws0; D_].

(** [str.find(x, p)] *)
Fixpoint find_from (x : ascii) (l : list ascii) (i : nat) : option nat :=
  match l with
  | [] => None
  | c :: t => if Ascii.eqb c x then Some i else find_from x t (S i)
  end.

Definition str_find (s : list ascii) (x : ascii) (p : nat) : option nat :=
  find_from x (skipn p s) p.

(** [s[i:j]] *)
Definition slice (s : list ascii) (i j : nat) : list ascii := firstn (j - i) (skipn i s).

(** [str.strip()] *)
Fixpoint lstrip (s : list ascii) : list ascii :=
  match s with
  | c :: t => if is_space c then lstrip t else s
  | [] => []
  end.

Definition strip (s : list ascii) : list ascii := rev (lstrip (rev (lstrip s))).

(** A candidate is a match object, kept as [(m.start(), m.end())]. *)
Definition cand := (nat * nat)%type.

(** [candidates.sort(key=lambda m: m.start(), reverse=True)]: a stable
    sort, descending on the start offset. *)
Fixpoint insert_desc (m : cand) (l : list cand) : list cand :=
  match l with
  | [] => [m]
  | x :: t => if fst m <=? fst x then x :: insert_desc m t else m :: l
  end.

Definition sort_desc (l : list cand) : list cand :=
  fold_left (fun acc m => insert_desc m acc) l [].

(** [min(candidates, key=lambda m: m.start())]: the first minimal one *)
Fixpoint min_start_aux (best : cand) (l : list cand) : cand :=
  match l with
  | [] => best
  | x :: t => if fst x <? fst best then min_start_aux x t else min_start_aux best t
  end.

Section Extract.

(** [self.min_section_length] *)
Variable min_section_length : Z.

(** the length test shared by both phases *)
Definition validate (section_text : list ascii) : option (list ascii) :=
  if (min_section_length <=? Z.of_nat (length section_text))%Z
  then Some (strip section_text) else None.

(** the line skip after a start match *)
Definition skip_header_line (text : list ascii) (start_pos : nat) : nat :=
  match str_find text nl start_pos with
  | Some next_newline =>
      if next_newline - start_pos <? 200 then S next_newline else start_pos
  | None => start_pos
  end.

(** the loop over [SECTION_END_PATTERNS[section_name]] *)
Fixpoint end_loop (text_lower : list ascii) (start_pos : nat) (pats : list re)
    (end_pos : nat) : nat :=
  match pats with
  | [] => end_pos
  | p :: ps =>
      match re_search p (skipn start_pos text_lower) with
      | Some (k, _) => if 500 <? k then start_pos + k
                       else end_loop text_lower start_pos ps end_pos
      | None => end_loop text_lower start_pos ps end_pos
      end
  end.

Definition find_end (text text_lower : list ascii) (sec : section) (start_pos : nat) : nat :=
  end_loop text_lower start_pos (section_end_patterns sec) (length text).

(** the span start for a candidate *)
Definition cand_start (text : list ascii) (m : cand) : nat :=
  skip_header_line text (snd m).

(** one iteration of the Phase-1 loop *)
Definition try_candidate (text text_lower : list ascii) (sec : section) (m : cand)
    : option (list ascii) :=
  let start_pos := cand_start text m in
  let end_pos := find_end text text_lower sec start_pos in
  validate (slice text start_pos end_pos).

Fixpoint phase1 (text text_lower : list ascii) (sec : section) (cands : list cand)
    : option (list ascii) :=
  match cands with
  | [] => None
  | m :: rest =>
      match try_candidate text text_lower sec m with
      | Some t => Some t
      | None => phase1 text text_lower sec rest
      end
  end.

Definition phase2_end (text text_lower : list ascii) (start_pos : nat) : nat :=
  match re_search any_item_marker (skipn start_pos text_lower) with
  | Some (k, _) => if 500 <? k then start_pos + k else length text
  | None => length text
  end.

Definition phase2 (text text_lower : list ascii) (cands : list cand) : option (list ascii) :=
  match cands with
  | [] => None
  | m0 :: rest =>
      let m := min_start_aux m0 rest in
      let start_pos := cand_start text m in
      let end_pos := phase2_end text text_lower start_pos in
      validate (slice text start_pos end_pos)
  end.

Definition find_candidates (text_lower : list ascii) (sec : section) : list cand :=
  flat_map (fun p => finditer p text_lower) (section_patterns sec).

(** [TenKParser._extract_section] *)
Definition extract_section (text : list ascii) (sec : section) : option (list ascii) :=
  let text_lower := lower_str text in
  let candidates := find_candidates text_lower sec in
  match candidates with
  | [] => None
  | _ :: _ =>
      let sorted := sort_desc candidates in
      match phase1 text text_lower sec sorted with
      | Some t => Some t
      | None => phase2 text text_lower sorted
      end
  end.

End Extract.

(** [r{3,}] for a group [r] *)
Definition at_least3 (r : re) : re := seqs [r; r; r; RStar r].

Definition any_char : re := RClass (fun _ => true).  (** [.] under [re.DOTALL] *)

(** [sub in s] for strings *)
Fixpoint is_prefix (p s : list ascii) : bool :=
  match p, s with
  | [], _ => true
  | x :: p', c :: s' => Ascii.eqb x c && is_prefix p' s'
  | _ :: _, [] => false
  end.

Fixpoint contains (p s : list ascii) : bool :=
  match s with
  | [] => is_prefix p s
  | _ :: s' => is_prefix p s || contains p s'
  end.

(** [<DOCUMENT>(.*?)</DOCUMENT>], DOTALL and IGNORECASE *)
Definition document_re : re :=
  seqs [lit_i "<document>"; RLazy any_char; lit_i "</document>"].
(** [<TYPE>\s*(10-K)\s*], IGNORECASE *)
Definition type_re : re := seqs [lit_i "<type>"; ws0; lit_i "10-k"; ws0].
(** [<TEXT>(.*?)</TEXT>], DOTALL and IGNORECASE *)
Definition text_re : re := seqs [lit_i "<text>"; RLazy any_char; lit_i "</text>"].
(** [</SEC-HEADER>|<TEXT>], IGNORECASE *)
Definition header_end_re : re := RAlt (lit_i "</sec-header>") (lit_i "<text>").

(** group 1 of a match of [<TAG>(.*?)</TAG>] spanning [(i, j)] *)
Definition inner (s : list ascii) (open_len close_len : nat) (m : nat * nat) : list ascii :=
  slice s (fst m + open_len) (snd m - close_len).

(** the [<TEXT>] body of a document block, else the part after its header *)
Definition text_of_block (doc : list ascii) : list ascii :=
  match re_search text_re doc with
  | Some m => inner doc 6 7 m
  | None =>
      match re_search header_end_re doc with
      | Some (_, e) => skipn e doc
      | None => doc
      end
  end.

(** [max(documents, key=len)]: the first longest one *)
Fixpoint max_len_aux (best : list ascii) (l : list (list ascii)) : list ascii :=
  match l with
  | [] => best
  | x :: t => if length best <? length x then max_len_aux x t else max_len_aux best t
  end.

Fixpoint first_10k (documents : list (list ascii)) : option (list ascii) :=
  match documents with
  | [] => None
  | doc :: rest =>
      match re_search type_re doc with
      | Some _ => Some (text_of_block doc)
      | None => first_10k rest
      end
  end.

(** [TenKParser._extract_10k_document] *)
Definition extract_10k_document (content : list ascii) : list ascii :=
  if negb (contains (str "<SEC-DOCUMENT>") content) && negb (contains (str "<DOCUMENT>") content)
  then content
  else
    let documents := map (inner content 10 11) (finditer document_re content) in
    match documents with
    | [] =>
        match finditer (lit_i "<document>") content with
        | (_, e) :: _ => skipn e content
        | [] => content
        end
    | d0 :: ds =>
        match first_10k documents with
        | Some t => t
        | None =>
            let largest_doc := max_len_aux d0 ds in
            match re_search text_re largest_doc with
            | Some m => inner largest_doc 6 7 m
            | None => largest_doc
            end
        end
    end.

(** The outcome of a call: the value it returns, or an exception that
    escapes it. *)
Inductive outcome (A : Type) := Returned (a : A) | Raised.
Arguments Returned {A} a.
Arguments Raised {A}.


(** the dictionary [{'item_1': ..., 'item_1a': ..., 'item_7': ...}] *)
Record sections := Sections {
  item_1 : option (list ascii);
  item_1a : option (list ascii);
  item_7 : option (list ascii) }.




Definition is_some {A} (o : option A) : bool := match o with Some _ => true | None => false end.
(** truthiness of a section value: [None] and the empty string are false *)
Definition truthy (o : option (list ascii)) : bool :=
  match o with Some (_ :: _) => true | _ => false end.

Section Parse.

Variable min_section_length : Z.
(** [BeautifulSoup(doc, 'lxml').get_text(separator='\n')], a library call *)
Variable get_text : list ascii -> list ascii.



(** the [output_dir] argument: [None] when it is not given, [Some mkdir_ok]
    when it is, [mkdir_ok] saying whether [output_dir.mkdir(parents=True,
    exist_ok=True)] in [_save_sections] succeeds; the writes there catch
    their own exceptions *)
Variable output_dir : option bool.



End Parse.

(** ** [TextCleaner] *)

Record cleaner := Cleaner {
  remove_tables : bool;
  remove_headers : bool;
  normalize_whitespace : bool;
  min_word_length : Z;
  max_consecutive_newlines : Z }.

(** [TextCleaner()] *)
Definition default_cleaner : cleaner := Cleaner true true true 2 2.

(** [s.split(x)] for a one-character separator *)
Fixpoint split_on (x : ascii) (s : list ascii) : list (list ascii) :=
  match s with
  | [] => [[]]
  | c :: t =>
      if Ascii.eqb c x then [] :: split_on x t
      else match split_on x t with
           | w :: ws => (c :: w) :: ws
           | [] => [[c]]
           end
  end.

(** [sep.join(ws)] *)
Fixpoint join (sep : list ascii) (ws : list (list ascii)) : list ascii :=
  match ws with
  | [] => []
  | [w] => w
  | w :: ws' => w ++ sep ++ join sep ws'
  end.

(** [s.split()]: maximal runs of non-whitespace *)
Fixpoint split_ws_aux (s cur : list ascii) : list (list ascii) :=
  match s with
  | [] => match cur with [] => [] | _ :: _ => [rev cur] end
  | c :: t =>
      if is_space c
      then match cur with
           | [] => split_ws_aux t []
           | _ :: _ => rev cur :: split_ws_aux t []
           end
      else split_ws_aux t (c :: cur)
  end.

Definition split_ws (s : list ascii) : list (list ascii) := split_ws_aux s [].

Definition sub_all (pats : list re) (repl s : list ascii) : list ascii :=
  fold_left (fun t p => re_sub p repl t) pats s.

(** [HTML_PATTERNS], used with [re.IGNORECASE] *)
Definition html_patterns : list re :=
  [ (* "&nbsp;?" *) seqs [chr_i "&"; lit_i "nbsp"; opt (chr_i ";")];
    (* "&[a-z]+;" *)
    seqs [chr_i "&"; plus (RClass (fun c => in_range 97 122 (lower c))); chr_i ";"];
    (* "<[^>]+>" *)
    seqs [chr_i "<"; plus (RClass (fun c => negb (Ascii.eqb c ">"%char))); chr_i ">"] ].

(** [BOILERPLATE_PATTERNS], used with [re.IGNORECASE] *)
Definition boilerplate_patterns : list re :=
  [ (* "table\s+of\s+contents" *)
    seqs [lit_i "table"; ws1; lit_i "of"; ws1; lit_i "contents"];
    (* "page\s+\d+\s+of\s+\d+" *)
    seqs [lit_i "page"; ws1; plus D_; ws1; lit_i "of"; ws1; plus D_];
    (* "\d+\s*\n\s*table\s+of\s+contents" *)
    seqs [plus D_; ws0; chr_i nl; ws0; lit_i "table"; ws1; lit_i "of"; ws1; lit_i "contents"];
    (* "(?:exhibit|schedule)\s+index" *)
    seqs [RAlt (lit_i "exhibit") (lit_i "schedule"); ws1; lit_i "index"] ].

Definition remove_html_artifacts (text : list ascii) : list ascii :=
  sub_all html_patterns [sp] text.

Definition remove_boilerplate (text : list ascii) : list ascii :=
  sub_all boilerplate_patterns [] text.

(** the tests of [_remove_tables] on one line *)
Definition digits_re : re := at_least3 (seqs [plus D_; plus S_]).     (** [(\d+\s+){3,}] *)
Definition dots_or_spaces_re : re :=                                    (** [(\.{3,}|\s{3,})] *)
  RAlt (at_least3 (chr "."%char)) (at_least3 S_).

Definition punct_count (line : list ascii) : nat :=                   (** [len(re.findall(r'[^\w\s]', line))] *)
  length (filter (fun c => negb (is_word c || is_space c)) line).

(** [len(...) > len(line) * 0.4]: the double nearest to [n * 0.4] is at
    least [2n/5] (the double [0.4] exceeds 2/5) and within far less than
    [1/5] of it for any line length a string can have, so the comparison
    with an integer is [5 * count > 2 * n]. *)
Definition mostly_punct (line : list ascii) : bool :=
  2 * length line <? 5 * punct_count line.

Definition is_table_line (line : list ascii) : bool :=
  is_some (re_search digits_re line)
  || (is_some (re_search dots_or_spaces_re line) && is_some (re_search D_ line))
  || mostly_punct line.

Definition remove_tables_ (text : list ascii) : list ascii :=
  join [nl] (filter (fun line => negb (is_table_line line)) (split_on nl text)).

Definition months_re : re :=
  fold_right RAlt (lit_i "december")
    (map lit_i ["january"; "february"; "march"; "april"; "may"; "june"; "july";
                "august"; "september"; "october"; "november"])%string.

(** [^\s*\d+\s*$], MULTILINE *)
Definition page_number_re : re := seqs [RBol; ws0; plus D_; ws0; REol].
(** [form\s+10-k], IGNORECASE *)
Definition form_10k_re : re := seqs [lit_i "form"; ws1; lit_i "10-k"].
(** [^\s*(?:january|...|december)\s+\d{1,2},?\s+\d{4}\s*$], MULTILINE and IGNORECASE *)
Definition date_line_re : re :=
  seqs [RBol; ws0; months_re; ws1; D_; opt D_; opt (chr_i ","); ws1; D_; D_; D_; D_;
        ws0; REol].

Definition remove_headers_footers (text : list ascii) : list ascii :=
  let text := re_sub page_number_re [] text in
  let text := re_sub form_10k_re [] text in
  re_sub date_line_re [] text.

(** the blank-line limiting loop of [_normalize_whitespace] *)
Fixpoint limit_blank (max_nl consecutive_empty : Z) (lines : list (list ascii))
    : list (list ascii) :=
  match lines with
  | [] => []
  | line :: rest =>
      match line with
      | _ :: _ => line :: limit_blank max_nl 0 rest
      | [] =>
          let consecutive_empty := (consecutive_empty + 1)%Z in
          if (consecutive_empty <=? max_nl)%Z
          then line :: limit_blank max_nl consecutive_empty rest
          else limit_blank max_nl consecutive_empty rest
      end
  end.

(** [ {2,}] *)
Definition sp2 : re := seqs [chr sp; chr sp; RStar (chr sp)].

Definition normalize_whitespace_ (max_nl : Z) (text : list ascii) : list ascii :=
  let text := map (fun c => if Ascii.eqb c tab then sp else c) text in
  let text := re_sub sp2 [sp] text in
  let lines := map strip (split_on nl text) in
  join [nl] (limit_blank max_nl 0 lines).

Definition preserve : list (list ascii) :=
  map str ["a"; "i"; "is"; "it"; "to"; "or"; "of"; "in"; "at"; "by"; "on"; "if";
           "no"; "we"; "us"]%string.

Definition mem_str (w : list ascii) (l : list (list ascii)) : bool :=
  existsb (fun p => if list_eq_dec ascii_dec w p then true else false) l.

Definition filter_short_words (min_len : Z) (text : list ascii) : list ascii :=
  join [sp] (filter (fun word => (min_len <=? Z.of_nat (length word))%Z
                                 || mem_str (lower_str word) preserve)
                    (split_ws text)).

(** [TextCleaner.clean] *)
Definition clean (cfg : cleaner) (text : list ascii) : list ascii :=
  match text with
  | [] => []
  | _ :: _ =>
      let text := remove_html_artifacts text in
      let text := remove_boilerplate text in
      let text := if remove_tables cfg then remove_tables_ text else text in
      let text := if remove_headers cfg then remove_headers_footers text else text in
      let text := if normalize_whitespace cfg
                   then normalize_whitespace_ (max_consecutive_newlines cfg) text else text in
      let text := filter_short_words (min_word_length cfg) text in
      strip text
  end.

(** ** [extract_metadata_from_filename] *)

(** [(\d{10})_(\d{4})_10K] *)
Definition metadata_re : re :=
  seqs (repeat D_ 10 ++ [chr "_"%char] ++ repeat D_ 4
        ++ [chr "_"%char; chr "1"%char; chr "0"%char; chr "K"%char]).

(** [int(s)] for a string of ASCII digits *)
Definition digits_value (s : list ascii) : Z :=
  fold_left (fun acc c => acc * 10 + (Z.of_N (code c) - 48))%Z s 0%Z.

(** [extract_metadata_from_filename]: both groups have a fixed width, so
    group 1 is [filename[k:k+10]] and group 2 is [filename[k+11:k+15]]
    for a match starting at [k]. *)
Definition extract_metadata_from_filename (filename : list ascii)
    : option (list ascii) * option Z :=
  match re_search metadata_re filename with
  | Some (k, _) =>
      (Some (slice filename k (k + 10)),
       Some (digits_value (slice filename (k + 11) (k + 15))))
  | None => (None, None)
  end.

(** [clean_text] *)
Definition clean_text (text : list ascii) (aggressive : bool) : list ascii :=
  let cleaner := if aggressive then Cleaner true true true 3 1 else default_cleaner in
  clean cleaner text.

(** ** [scripts/process_batch.py] *)

Definition us : ascii := "_"%char.

(** a literal without [re.IGNORECASE] *)
Definition lit (s : string) : re := fold_right (fun x r => RSeq (chr x) r) REps (str s).

(** [str.rfind(x)], [None] for [-1] *)
Fixpoint rfind_aux (x : ascii) (l : list ascii) (i : nat) (found : option nat) : option nat :=
  match l with
  | [] => found
  | c :: t => rfind_aux x t (S i) (if Ascii.eqb c x then Some i else found)
  end.

(** [PurePath.stem] of a file name *)
Definition stem (name : list ascii) : list ascii :=
  match rfind_aux "."%char name 0 None with
  | Some i => if (0 <? i) && (i <? length name - 1) then firstn i name else name
  | None => name
  end.

(** [output_dir.glob('*_item_*.txt')] on the name of one entry: the
    pattern is translated to [(?s:.*_item_.*\.txt)\Z], case-sensitive,
    which must match the whole name *)
Definition item_file_re : re :=
  seqs [RStar any_char; lit "_item_"; RStar any_char; lit ".txt"].

Definition fullmatch (r : re) (s : list ascii) : bool :=
  existsb (fun e => idx e =? length s) (mt r (start_pos s)).

(** ['_'.join(stem.split('_')[:-2])] *)
Definition stem_base (st : list ascii) : list ascii :=
  let parts := split_on us st in join [us] (firstn (length parts - 2) parts).

(** ['_'.join(stem.split('_')[-2:])] *)
Definition stem_section (st : list ascii) : list ascii :=
  let parts := split_on us st in join [us] (skipn (length parts - 2) parts).

(** [processed.setdefault(base_name, set()).add(section)] on the
    dictionary [processed], in insertion order *)
Fixpoint add_found (base sec : list ascii) (d : list (list ascii * list (list ascii)))
    : list (list ascii * list (list ascii)) :=
  match d with
  | [] => [(base, [sec])]
  | (b, found) :: rest =>
      if list_eq_dec ascii_dec b base
      then (b, if mem_str sec found then found else found ++ [sec]) :: rest
      else (b, found) :: add_found base sec rest
  end.

(** [get_processed_files]; the listing of [output_dir] is [None] when the
    directory does not exist *)
Definition get_processed_files (listing : option (list (list ascii)))
    (sections : list (list ascii)) : list (list ascii) :=
  match listing with
  | None => []
  | Some names =>
      let processed :=
        fold_left (fun d name => add_found (stem_base (stem name)) (stem_section (stem name)) d)
                  (filter (fullmatch item_file_re) names) [] in
      map fst (filter (fun bf => forallb (fun s => mem_str s (snd bf)) sections) processed)
  end.

(** the skip step of [main]: [[f for f in html_files if f.stem not in processed]] *)
Definition skip_processed (processed html_files : list (list ascii)) : list (list ascii) :=
  filter (fun f => negb (mem_str (stem f) processed)) html_files.

(** [extracted.get(section_name)] on the dictionary of [parse_file] *)
Definition section_value (extracted : sections) (name : list ascii) : option (list ascii) :=
  if list_eq_dec ascii_dec name (str "item_1") then item_1 extracted
  else if list_eq_dec ascii_dec name (str "item_1a") then item_1a extracted
  else if list_eq_dec ascii_dec name (str "item_7") then item_7 extracted
  else None.

(** [f"{base_name}_{section_name}.txt"] *)
Definition section_file (base sec : list ascii) : list ascii :=
  base ++ [us] ++ sec ++ str ".txt".

(** [results[key] = value] *)
Fixpoint set_len (key : list ascii) (v : nat) (l : list (list ascii * nat))
    : list (list ascii * nat) :=
  match l with
  | [] => [(key, v)]
  | (k, w) :: t =>
      if list_eq_dec ascii_dec k key then (k, v) :: t else (k, w) :: set_len key v t
  end.

(** the counters and the [<section>_length] entries of [results] *)
Record pf_state := PfState {
  st_extracted : nat; st_cleaned : nat; st_lengths : list (list ascii * nat) }.

(** the dictionary returned by [process_file]; [pf_error] says whether
    the key ['error'] was set *)
Record pf_result := PfResult {
  pf_filename : list ascii; pf_base_name : list ascii; pf_success : bool;
  pf_sections_extracted : nat; pf_sections_cleaned : nat;
  pf_lengths : list (list ascii * nat); pf_error : bool }.

Section ProcessFile.

(** whether opening and writing the output file of that name succeeds *)
Variable write_ok : list ascii -> bool.
(** the [cleaner] argument and the [clean_text] flag *)
Variable cfg : cleaner.
Variable clean_flag : bool.

(** the loop over [sections]: the state at its end (or at the write that
    raised), the files written with their contents, and whether a write
    raised *)
Fixpoint save_loop (base_name : list ascii) (extracted : sections) (secs : list (list ascii))
    (st : pf_state) (written : list (list ascii * list ascii))
    : pf_state * list (list ascii * list ascii) * bool :=
  match secs with
  | [] => (st, written, false)
  | section_name :: rest =>
      match section_value extracted section_name with
      | Some (c :: t) =>
          let extracted_n := S (st_extracted st) in
          let text := if clean_flag then clean cfg (c :: t) else c :: t in
          let cleaned_n := if clean_flag then S (st_cleaned st) else st_cleaned st in
          let output_file := section_file base_name section_name in
          if write_ok output_file
          then save_loop base_name extracted rest
                 (PfState extracted_n cleaned_n
                    (set_len (section_name ++ str "_length") (length text) (st_lengths st)))
                 (written ++ [(output_file, text)])
          else (PfState extracted_n cleaned_n (st_lengths st), written, true)
      | _ => save_loop base_name extracted rest st written
      end
  end.

(** [process_file] on the file [filename], where [extracted] is the
    outcome of [parser.parse_file(filepath)] (for a [TenKParser], the
    [parse_file] above): the result dictionary and the files written.  An
    exception of [parse_file] is caught by the [try] block: ['error'] is
    set and nothing is written. *)
Definition process_file (filename : list ascii) (extracted : outcome sections)
    (secs : list (list ascii)) : pf_result * list (list ascii * list ascii) :=
  let base_name := stem filename in
  match extracted with
  | Raised => (PfResult filename base_name false 0 0 [] true, [])
  | Returned ex =>
      let '(st, written, failed) := save_loop base_name ex secs (PfState 0 0 []) [] in
      (PfResult filename base_name (if failed then false else 0 <? st_extracted st)
                (st_extracted st) (st_cleaned st) (st_lengths st) failed,
       written)
  end.

End ProcessFile.

(** [[s.strip() for s in args.sections.split(',')]] *)
Definition parse_sections (arg : list ascii) : list (list ascii) :=
  map strip (split_on ","%char arg).

(** ** Notions used by the statements *)

Definition pos_at (s : list ascii) (k : nat) : pos :=
  Pos (rev (firstn k s)) (skipn k s) k (length s - k).

(** [r] matches [s] at offset [k] *)
Definition matches_at (r : re) (s : list ascii) (k : nat) : Prop :=
  mt r (pos_at s k) <> [].

(** [k] is the leftmost offset at which [r] matches [s] *)
Definition first_match_at (r : re) (s : list ascii) (k : nat) : Prop :=
  k <= length s /\ matches_at r s k /\ forall j, j < k -> ~ matches_at r s j.

(** [z] is the position at offset [idx z] of [s] *)
Definition wf_at (s : list ascii) (z : pos) : Prop := z = pos_at s (idx z) /\ idx z <= length s.

Definition later_first (a b : cand) : Prop := fst b <= fst a.

(** the pattern's leftmost match in [suf], if any, is within 500 characters *)
Definition no_far_match (suf : list ascii) (q : re) : Prop :=
  forall j, first_match_at q suf j -> j <= 500.

Definition no_ws (w : list ascii) : Prop := Forall (fun c => is_space c = false) w.

(** the output shape asserted for [clean] *)
Definition single_line (s : list ascii) : Prop :=
  ~ In nl s /\ ~ In tab s /\ forall pre post, s <> pre ++ sp :: sp :: post.

(** [a] occurs in [b] as a contiguous substring *)
Definition infix (a b : list ascii) : Prop := exists p q, b = p ++ a ++ q.

(** the test of [_filter_short_words] on one word *)
Definition keep_word (min_len : Z) (word : list ascii) : bool :=
  (min_len <=? Z.of_nat (length word))%Z || mem_str (lower_str word) preserve.

(** the keys of the dictionary of [parse_file] *)
Definition section_names : list (list ascii) := map str ["item_1"; "item_1a"; "item_7"]%string.

(** the value of a present section, [""] otherwise *)
Definition section_text (extracted : sections) (name : list ascii) : list ascii :=
  match section_value extracted name with Some t => t | None => [] end.


(** [matches_at], decided *)
Definition matches_atb (r : re) (s : list ascii) (k : nat) : bool :=
  match mt r (pos_at s k) with [] => false | _ :: _ => true end.

(** the least offset [k >= from] at which one of [pats] matches [s] *)
Fixpoint nearest_from (pats : list re) (s : list ascii) (from fuel : nat) : option nat :=
  match fuel with
  | 0 => None
  | S f =>
      if existsb (fun p => matches_atb p s from) pats then Some from
      else nearest_from pats s (S from) f
  end.

(** The end offset as the spec words it: the nearest match of an end
    pattern of the section lying at least 500 characters after [start_pos],
    else the end of the document. *)
Definition nearest_end_spec (text text_lower : list ascii) (pats : list re)
    (start_pos : nat) : nat :=
  let suf := skipn start_pos text_lower in
  match nearest_from pats suf 500 (S (length suf - 500)) with
  | Some k => start_pos + k
  | None => length text
  end.

(** The span start as the spec words it: the offset of the candidate,
    then the same line skip. *)
Definition spec_cand_start (text : list ascii) (m : cand) : nat :=
  skip_header_line text (fst m).

(** The table-row test as the spec words it: three digit runs separated
    by whitespace ([\d+\s+\d+\s+\d+]), or a run of three dots or three
    whitespace characters together with a digit, or mostly punctuation. *)
Definition spec_digit_runs : re := seqs [plus D_; ws1; plus D_; ws1; plus D_].

Definition spec_table_line (line : list ascii) : bool :=
  is_some (re_search spec_digit_runs line)
  || (is_some (re_search dots_or_spaces_re line) && is_some (re_search D_ line))
  || mostly_punct line.

(** equality of candidate lists, decided *)
Fixpoint cands_eqb (l1 l2 : list cand) : bool :=
  match l1, l2 with
  | [], [] => true
  | a :: t1, b :: t2 => (fst a =? fst b) && (snd a =? snd b) && cands_eqb t1 t2
  | _, _ => false
  end.

(** ** Sample documents *)

(** [n] characters of lines of 80 characters, the last one a line break *)
Fixpoint filler_lines (n col : nat) : list ascii :=
  match n with
  | 0 => []
  | 1 => [nl]
  | S n' =>
      match col with
      | 0 => nl :: filler_lines n' 79
      | S c => "x"%char :: filler_lines n' c
      end
  end.

Definition sentence : list ascii :=
  str "The Company designs, manufactures and markets products worldwide. ".

(** [n] characters of prose without line breaks *)
Definition prose (n : nat) : list ascii := firstn n (concat (repeat sentence (n / 10 + 1))).

(** a table-of-contents line at offset 10, the real header at offset 50000,
    2000 characters of prose, then the next item *)
Definition toc_doc : list ascii :=
  str "FORM 10-K" ++ [nl] ++ str "Item 1. Business ... 3" ++ [nl]
  ++ filler_lines 49967 79
  ++ str "Item 1. Business" ++ [nl] ++ prose 2000
  ++ [nl] ++ str "Item 1A. Risk Factors".

(** an "Item 2" header 600 characters in, an "Item 1A" header further on *)
Definition two_ends_doc : list ascii :=
  repeat "a"%char 600 ++ [nl] ++ str "Item 2. Properties" ++ repeat "b"%char 300
  ++ [nl] ++ str "Item 1A. Risk Factors" ++ repeat "c"%char 100.

(** an item marker 100 characters after the header, "Item 1A" after 1527 *)
Definition early_marker_doc : list ascii :=
  str "Item 1. Business" ++ [nl] ++ prose 100
  ++ [nl] ++ str "Item 3. Legal Proceedings" ++ [nl] ++ prose 1400
  ++ [nl] ++ str "Item 1A. Risk Factors" ++ [nl] ++ prose 2000.

(** a header followed by prose on the same line *)
Definition inline_header_doc : list ascii := str "Item 1. Business " ++ prose 1500.

(** a header line, [n] characters of prose, then the next item *)
Definition sized_doc (n : nat) : list ascii :=
  str "Item 1. Business" ++ [nl] ++ prose n ++ [nl] ++ str "Item 1A. Risk Factors".


Definition years_row : list ascii := str "2019 2020 2021".

(** the character tests of [metadata_re], position by position *)
Fixpoint classes_ok (ps : list (ascii -> bool)) (l : list ascii) : bool :=
  match ps, l with
  | [], _ => true
  | p :: ps', c :: l' => p c && classes_ok ps' l'
  | _ :: _, [] => false
  end.

Definition metadata_classes : list (ascii -> bool) :=
  repeat is_digit 10 ++ (fun c => Ascii.eqb c "_"%char) :: repeat is_digit 4
  ++ [fun c => Ascii.eqb c "_"%char; fun c => Ascii.eqb c "1"%char;
      fun c => Ascii.eqb c "0"%char; fun c => Ascii.eqb c "K"%char].

(** a line that is not empty, as tested by [if line:] *)
Definition nonempty_line (line : list ascii) : bool :=
  match line with [] => false | _ :: _ => true end.

(** the value of a key of the dictionary built by [add_found] *)
Fixpoint lookup_found (b : list ascii) (d : list (list ascii * list (list ascii)))
    : option (list (list ascii)) :=
  match d with
  | [] => None
  | (k, found) :: rest => if list_eq_dec ascii_dec k b then Some found else lookup_found b rest
  end.

(** * Properties *)

(** ** Matching positions *)

Lemma skipn_cons_firstn : forall (s : list ascii) i c t,
  skipn i s = c :: t -> firstn (S i) s = firstn i s ++ [c] /\ skipn (S i) s = t.
Proof.
  induction s as [|x s IH]; intros i c t H.
  - destruct i; discriminate.
  - destruct i as [|i]; simpl in *.
    + inversion H; subst. auto.
    + destruct (IH i c t H) as [H1 H2]. rewrite H1. auto.
Qed.

Lemma skipn_cons_lt : forall (s : list ascii) i c t, skipn i s = c :: t -> i < length s.
Proof.
  induction s as [|x s IH]; intros i c t H.
  - destruct i; discriminate.
  - destruct i; simpl in *; [lia|]. apply IH in H. lia.
Qed.

Lemma adv_pos_at : forall s i c t,
  skipn i s = c :: t -> adv (pos_at s i) c t = pos_at s (S i).
Proof.
  intros s i c t H. destruct (skipn_cons_firstn s i c t H) as [H1 H2].
  pose proof (skipn_cons_lt s i c t H).
  unfold adv, pos_at. cbn [before after idx rem]. rewrite H1, H2, rev_app_distr.
  simpl. f_equal. lia.
Qed.

Lemma skipn_nil_ge : forall (s : list ascii) i, i <= length s -> skipn i s = [] -> i = length s.
Proof.
  induction s as [|x s IH]; intros i Hi H; simpl in *.
  - lia.
  - destruct i; [discriminate|]. simpl in H. apply IH in H; lia.
Qed.

Lemma star_iter_wf : forall s (f : pos -> list pos),
  (forall z e, wf_at s z -> In e (f z) -> wf_at s e /\ idx z <= idx e) ->
  forall fuel z e, wf_at s z -> In e (star_iter f fuel z) -> wf_at s e /\ idx z <= idx e.
Proof.
  intros s f Hf. induction fuel as [|k IH]; intros z e Hz He; simpl in He.
  - destruct He as [<-|[]]. auto.
  - apply in_app_or in He. destruct He as [He|[<-|[]]]; [|auto].
    apply in_flat_map in He. destruct He as [z' [Hz' He]].
    destruct (Nat.ltb_spec (idx z) (idx z')); [|contradiction].
    destruct (Hf z z' Hz Hz') as [Hw1 _].
    destruct (IH z' e Hw1 He). split; [auto|lia].
Qed.

Lemma lazy_iter_wf : forall s (f : pos -> list pos),
  (forall z e, wf_at s z -> In e (f z) -> wf_at s e /\ idx z <= idx e) ->
  forall fuel z e, wf_at s z -> In e (lazy_iter f fuel z) -> wf_at s e /\ idx z <= idx e.
Proof.
  intros s f Hf. induction fuel as [|k IH]; intros z e Hz He; simpl in He.
  - destruct He as [<-|[]]. auto.
  - destruct He as [<-|He]; [auto|].
    apply in_flat_map in He. destruct He as [z' [Hz' He]].
    destruct (Nat.ltb_spec (idx z) (idx z')); [|contradiction].
    destruct (Hf z z' Hz Hz') as [Hw1 _].
    destruct (IH z' e Hw1 He). split; [auto|lia].
Qed.

Lemma mt_wf : forall s r z e, wf_at s z -> In e (mt r z) -> wf_at s e /\ idx z <= idx e.
Proof.
  intros s r. induction r as [p|r1 IH1 r2 IH2|r1 IH1 r2 IH2|r1 IH1|r1 IH1| | | ];
    intros z e Hz He; simpl in He.
  - destruct Hz as [Hz Hl]. destruct (after z) as [|c t] eqn:Ha; [contradiction|].
    destruct (p c); [|contradiction]. destruct He as [<-|[]].
    assert (Hs : skipn (idx z) s = c :: t) by (rewrite Hz in Ha; exact Ha).
    pose proof (skipn_cons_lt s (idx z) c t Hs).
    rewrite Hz at 1. rewrite (adv_pos_at s (idx z) c t Hs).
    unfold wf_at; simpl. split; [split; [reflexivity|lia]|lia].
  - apply in_flat_map in He. destruct He as [z' [Hz' He]].
    destruct (IH1 z z' Hz Hz'). destruct (IH2 z' e); auto. split; [auto|lia].
  - apply in_app_or in He. destruct He; eauto.
  - exact (star_iter_wf s (mt r1) IH1 (S (rem z)) z e Hz He).
  - exact (lazy_iter_wf s (mt r1) IH1 (S (rem z)) z e Hz He).
  - destruct He as [<-|[]]. auto.
  - destruct (before z); [destruct He as [<-|[]]; auto|].
    destruct (Ascii.eqb a nl); [destruct He as [<-|[]]; auto|contradiction].
  - destruct (after z); [destruct He as [<-|[]]; auto|].
    destruct (Ascii.eqb a nl); [destruct He as [<-|[]]; auto|contradiction].
Qed.

Lemma search_aux_spec : forall r s a b i n,
  b = rev (firstn i s) -> a = skipn i s -> n = length s - i -> i <= length s ->
  match search_aux r b a i n with
  | Some (z, e) =>
      i <= idx z /\ wf_at s z /\ hd_error (mt r z) = Some e
      /\ forall j, i <= j < idx z -> ~ matches_at r s j
  | None => forall j, i <= j <= length s -> ~ matches_at r s j
  end.
Proof.
  intros r s. induction a as [|c t IH]; intros b i n Hb Ha Hn Hi; simpl.
  - assert (Hz : Pos b [] i n = pos_at s i) by (subst; unfold pos_at; rewrite <- Ha; reflexivity).
    pose proof (skipn_nil_ge s i Hi (eq_sym Ha)) as Heq.
    rewrite Hz. destruct (mt r (pos_at s i)) as [|e es] eqn:Hm.
    + intros j Hj. assert (j = i) by lia. subst j. unfold matches_at. rewrite Hm. auto.
    + simpl. split; [lia|]. split; [split; [reflexivity|simpl; lia]|]. split; [try rewrite Hm; reflexivity|].
      intros j Hj. simpl in Hj. lia.
  - assert (Hz : Pos b (c :: t) i n = pos_at s i) by (subst; unfold pos_at; rewrite <- Ha; reflexivity).
    rewrite Hz. destruct (mt r (pos_at s i)) as [|e es] eqn:Hm.
    + destruct (skipn_cons_firstn s i c t (eq_sym Ha)) as [H1 H2].
      pose proof (skipn_cons_lt s i c t (eq_sym Ha)).
      specialize (IH (c :: b) (S i) (pred n)).
      assert (Hrec : c :: b = rev (firstn (S i) s)) by (rewrite H1, rev_app_distr, Hb; reflexivity).
      specialize (IH Hrec (eq_sym H2) ltac:(lia) ltac:(lia)).
      destruct (search_aux r (c :: b) t (S i) (pred n)) as [[z e']|].
      * destruct IH as [Hle [Hw [Hh Hn']]]. split; [lia|]. split; [auto|]. split; [auto|].
        intros j Hj. destruct (Nat.eq_dec j i) as [->|Hne].
        -- unfold matches_at. rewrite Hm. auto.
        -- apply Hn'. lia.
      * intros j Hj. destruct (Nat.eq_dec j i) as [->|Hne].
        -- unfold matches_at. rewrite Hm. auto.
        -- apply IH. lia.
    + simpl. split; [lia|]. split; [split; [reflexivity|simpl; lia]|]. split; [try rewrite Hm; reflexivity|].
      intros j Hj. simpl in Hj. lia.
Qed.

Lemma search_pos_spec : forall r s z,
  wf_at s z ->
  match search_pos r z with
  | Some (b, e) =>
      idx z <= idx b /\ wf_at s b /\ hd_error (mt r b) = Some e
      /\ forall j, idx z <= j < idx b -> ~ matches_at r s j
  | None => forall j, idx z <= j <= length s -> ~ matches_at r s j
  end.
Proof.
  intros r s z [Hz Hl]. unfold search_pos.
  rewrite Hz. simpl. apply search_aux_spec; auto.
Qed.

Lemma start_pos_wf : forall s, wf_at s (start_pos s).
Proof. intros s. unfold wf_at, start_pos, pos_at. simpl. rewrite Nat.sub_0_r. split; [reflexivity|lia]. Qed.

(** [re.search] reports the leftmost offset at which the pattern matches *)
Lemma re_search_spec : forall r s,
  match re_search r s with
  | Some (k, e) => first_match_at r s k
                   /\ exists z, hd_error (mt r (pos_at s k)) = Some z /\ idx z = e
  | None => forall j, j <= length s -> ~ matches_at r s j
  end.
Proof.
  intros r s. unfold re_search.
  pose proof (search_pos_spec r s (start_pos s) (start_pos_wf s)) as H.
  destruct (search_pos r (start_pos s)) as [[b e]|].
  - destruct H as [_ [[Hb Hl] [Hh Hn]]]. split.
    + split; [auto|]. split.
      * unfold matches_at. rewrite <- Hb. intros Hm. rewrite Hm in Hh. discriminate.
      * intros j Hj. apply Hn. simpl. lia.
    + exists e. rewrite <- Hb. auto.
  - intros j Hj. apply H. simpl. lia.
Qed.

Lemma finditer_aux_spec : forall r s fuel z i j,
  wf_at s z -> In (i, j) (finditer_aux fuel r z) ->
  exists e, hd_error (mt r (pos_at s i)) = Some e /\ idx e = j.
Proof.
  intros r s. induction fuel as [|k IH]; intros z i j Hz Hin; simpl in Hin; [contradiction|].
  pose proof (search_pos_spec r s z Hz) as Hs.
  destruct (search_pos r z) as [[b e]|]; [|contradiction].
  destruct Hs as [_ [Hb [Hh _]]].
  assert (He : wf_at s e).
  { destruct (mt r b) as [|e0 es] eqn:Hm; [discriminate|]. simpl in Hh. inversion Hh; subst e0.
    apply (mt_wf s r b e Hb). rewrite Hm. left. reflexivity. }
  destruct Hin as [Heq|Hin].
  - inversion Heq; subst. exists e. destruct Hb as [Hb _]. rewrite <- Hb. auto.
  - destruct (idx b <? idx e).
    + eapply IH; eauto.
    + destruct (after e) as [|c t] eqn:Ha; [contradiction|].
      apply (IH (adv e c t)); auto.
      destruct He as [He Hl].
      assert (Hsk : skipn (idx e) s = c :: t) by (rewrite He in Ha; exact Ha).
      pose proof (skipn_cons_lt s (idx e) c t Hsk).
      rewrite He, (adv_pos_at s (idx e) c t Hsk). split; [reflexivity|simpl; lia].
Qed.

(** each pair of [finditer] is [(m.start(), m.end())] of a match *)
Lemma finditer_spec : forall r s i j,
  In (i, j) (finditer r s) -> exists e, hd_error (mt r (pos_at s i)) = Some e /\ idx e = j.
Proof. intros r s i j H. eapply finditer_aux_spec; [apply start_pos_wf|exact H]. Qed.

Lemma first_match_at_unique : forall r s j k,
  first_match_at r s j -> first_match_at r s k -> j = k.
Proof.
  intros r s j k [_ [Hj Hjl]] [_ [Hk Hkl]].
  destruct (Nat.lt_trichotomy j k) as [H|[H|H]]; auto.
  - exfalso. exact (Hkl j H Hj).
  - exfalso. exact (Hjl k H Hk).
Qed.

(** ** Candidate order *)

Lemma insert_desc_perm : forall m l, Permutation (insert_desc m l) (m :: l).
Proof.
  intros m. induction l as [|x t IH]; simpl; [auto|].
  destruct (fst m <=? fst x); [|auto].
  rewrite IH. apply perm_swap.
Qed.

Lemma insert_desc_hd : forall m x l,
  HdRel later_first x l -> later_first x m -> HdRel later_first x (insert_desc m l).
Proof.
  intros m x l Hl Hm. destruct l as [|y t]; simpl; [auto|].
  destruct (fst m <=? fst y); constructor; [apply (HdRel_inv Hl)|exact Hm].
Qed.

Lemma insert_desc_sorted : forall m l,
  Sorted later_first l -> Sorted later_first (insert_desc m l).
Proof.
  intros m. induction l as [|x t IH]; intros H; simpl; [auto|].
  apply Sorted_inv in H as [Ht Hx].
  destruct (Nat.leb_spec (fst m) (fst x)).
  - constructor; [auto|]. apply insert_desc_hd; [exact Hx|unfold later_first; lia].
  - constructor; [constructor; auto|]. constructor. unfold later_first. lia.
Qed.

Lemma fold_insert_spec : forall l acc,
  Sorted later_first acc ->
  Sorted later_first (fold_left (fun acc m => insert_desc m acc) l acc)
  /\ Permutation (acc ++ l) (fold_left (fun acc m => insert_desc m acc) l acc).
Proof.
  induction l as [|x t IH]; intros acc H; simpl.
  - rewrite app_nil_r. auto.
  - destruct (IH (insert_desc x acc) (insert_desc_sorted x acc H)) as [H1 H2].
    split; [exact H1|].
    rewrite <- H2. rewrite insert_desc_perm. simpl.
    symmetry. apply Permutation_middle.
Qed.

Lemma sort_desc_sorted : forall l, Sorted later_first (sort_desc l).
Proof. intros l. apply (fold_insert_spec l []). constructor. Qed.

Lemma sort_desc_perm : forall l, Permutation l (sort_desc l).
Proof. intros l. apply (fold_insert_spec l []). constructor. Qed.

Lemma min_start_aux_spec : forall l b,
  In (min_start_aux b l) (b :: l) /\ forall x, In x (b :: l) -> fst (min_start_aux b l) <= fst x.
Proof.
  induction l as [|y t IH]; intros b; simpl.
  - split; [auto|]. intros x [<-|[]]. lia.
  - destruct (Nat.ltb_spec (fst y) (fst b)).
    + destruct (IH y) as [H1 H2]. split.
      * destruct H1 as [H1|H1]; auto.
      * intros x [<-|[<-|Hx]].
        -- specialize (H2 y (or_introl eq_refl)). lia.
        -- apply H2. left. reflexivity.
        -- apply H2. right. exact Hx.
    + destruct (IH b) as [H1 H2]. split.
      * destruct H1 as [H1|H1]; auto.
      * intros x [<-|[<-|Hx]].
        -- apply H2. left. reflexivity.
        -- specialize (H2 b (or_introl eq_refl)). lia.
        -- apply H2. right. exact Hx.
Qed.

(** ** The Phase-1 loop *)

Section Loops.

Variable min_section_length : Z.
Variables (text text_lower : list ascii) (sec : section).

Local Abbreviation try := (try_candidate min_section_length text text_lower sec).

Lemma phase1_some : forall l t,
  phase1 min_section_length text text_lower sec l = Some t <->
  exists pre m post, l = pre ++ m :: post /\ Forall (fun m' => try m' = None) pre
                     /\ try m = Some t.
Proof.
  induction l as [|m l IH]; intros t; simpl.
  - split; [discriminate|]. intros [pre [m [post [H _]]]]. destruct pre; discriminate.
  - destruct (try m) as [t'|] eqn:Hm.
    + split.
      * intros [= <-]. exists [], m, l. auto.
      * intros [pre [m' [post [Hl [Hpre Ht]]]]].
        destruct pre as [|x pre]; simpl in Hl; inversion Hl; subst.
        -- congruence.
        -- inversion Hpre; congruence.
    + rewrite IH. split.
      * intros [pre [m' [post [Hl [Hpre Ht]]]]]. exists (m :: pre), m', post.
        subst. auto.
      * intros [pre [m' [post [Hl [Hpre Ht]]]]].
        destruct pre as [|x pre]; simpl in Hl; inversion Hl; subst.
        -- congruence.
        -- inversion Hpre; subst. exists pre, m', post. auto.
Qed.

Lemma phase1_none : forall l,
  phase1 min_section_length text text_lower sec l = None <-> Forall (fun m => try m = None) l.
Proof.
  induction l as [|m l IH]; simpl.
  - split; auto.
  - destruct (try m) eqn:Hm.
    + split; [discriminate|]. intros H. inversion H; congruence.
    + rewrite IH. split; [auto|]. intros H. inversion H; auto.
Qed.

End Loops.

(** ** End offsets *)

Lemma end_loop_spec : forall tl s pats d,
  let suf := skipn s tl in
  (exists pre p post k, pats = pre ++ p :: post /\ Forall (no_far_match suf) pre
     /\ first_match_at p suf k /\ 500 < k /\ end_loop tl s pats d = s + k)
  \/ (Forall (no_far_match suf) pats /\ end_loop tl s pats d = d).
Proof.
  intros tl s pats d suf. induction pats as [|p ps IH]; simpl.
  - right. auto.
  - pose proof (re_search_spec p suf) as Hs. fold suf.
    destruct (re_search p suf) as [[k e]|].
    + destruct Hs as [Hk _]. destruct (Nat.ltb_spec 500 k).
      * left. exists [], p, ps, k. auto.
      * assert (Hp : no_far_match suf p).
        { intros j Hj. rewrite (first_match_at_unique p suf j k Hj Hk). lia. }
        destruct IH as [[pre [p' [post [k' [H1 [H2 [H3 [H4 H5]]]]]]]]|[H1 H2]].
        -- left. exists (p :: pre), p', post, k'. subst. auto.
        -- right. auto.
    + assert (Hp : no_far_match suf p).
      { intros j [Hl [Hj _]]. exfalso. exact (Hs j Hl Hj). }
      destruct IH as [[pre [p' [post [k' [H1 [H2 [H3 [H4 H5]]]]]]]]|[H1 H2]].
      * left. exists (p :: pre), p', post, k'. subst. auto.
      * right. auto.
Qed.

Lemma phase2_end_spec : forall text tl s,
  let suf := skipn s tl in
  (exists k, first_match_at any_item_marker suf k /\ 500 < k /\ phase2_end text tl s = s + k)
  \/ (no_far_match suf any_item_marker /\ phase2_end text tl s = length text).
Proof.
  intros text tl s suf. unfold phase2_end. fold suf.
  pose proof (re_search_spec any_item_marker suf) as Hs.
  destruct (re_search any_item_marker suf) as [[k e]|].
  - destruct Hs as [Hk _]. destruct (Nat.ltb_spec 500 k).
    + left. exists k. auto.
    + right. split; [|reflexivity]. intros j Hj.
      rewrite (first_match_at_unique _ _ j k Hj Hk). lia.
  - right. split; [|reflexivity]. intros j [Hl [Hj _]]. exfalso. exact (Hs j Hl Hj).
Qed.

(** ** The line skip *)

Lemma find_from_spec : forall x l i,
  match find_from x l i with
  | Some q => i <= q /\ nth_error l (q - i) = Some x
              /\ forall j, i <= j < q -> nth_error l (j - i) <> Some x
  | None => forall j, nth_error l j <> Some x
  end.
Proof.
  intros x. induction l as [|c t IH]; intros i; simpl.
  - intros j. destruct j; discriminate.
  - destruct (Ascii.eqb_spec c x) as [->|Hne].
    + rewrite Nat.sub_diag. split; [lia|]. split; [reflexivity|]. intros j Hj. lia.
    + specialize (IH (S i)). destruct (find_from x t (S i)) as [q|].
      * destruct IH as [H1 [H2 H3]]. split; [lia|]. split.
        -- replace (q - i) with (S (q - S i)) by lia. exact H2.
        -- intros j Hj. destruct (Nat.eq_dec j i) as [->|Hji].
           ++ rewrite Nat.sub_diag. simpl. congruence.
           ++ replace (j - i) with (S (j - S i)) by lia. apply H3. lia.
      * intros j. destruct j as [|j]; simpl; [congruence|apply IH].
Qed.

Lemma skip_header_line_spec : forall text p,
  (exists q, p <= q < p + 200 /\ nth_error text q = Some nl
             /\ (forall j, p <= j < q -> nth_error text j <> Some nl)
             /\ skip_header_line text p = S q)
  \/ ((forall j, p <= j < p + 200 -> nth_error text j <> Some nl)
      /\ skip_header_line text p = p).
Proof.
  intros text p. unfold skip_header_line, str_find.
  pose proof (find_from_spec nl (skipn p text) p) as H.
  destruct (find_from nl (skipn p text) p) as [q|].
  - destruct H as [H1 [H2 H3]].
    rewrite nth_error_skipn in H2. replace (p + (q - p)) with q in H2 by lia.
    destruct (Nat.ltb_spec (q - p) 200).
    + left. exists q. split; [lia|]. split; [exact H2|]. split; [|reflexivity].
      intros j Hj. specialize (H3 j Hj). rewrite nth_error_skipn in H3.
      replace (p + (j - p)) with j in H3 by lia. exact H3.
    + right. split; [|reflexivity]. intros j Hj.
      destruct (Nat.lt_ge_cases j q) as [Hjq|Hjq].
      * specialize (H3 j (conj (proj1 Hj) Hjq)). rewrite nth_error_skipn in H3.
        replace (p + (j - p)) with j in H3 by lia. exact H3.
      * lia.
  - right. split; [|reflexivity]. intros j Hj. specialize (H (j - p)).
    rewrite nth_error_skipn in H. replace (p + (j - p)) with j in H by lia. exact H.
Qed.

(** ** Tokens *)

Lemma split_ws_aux_words : forall s cur,
  no_ws cur -> Forall (fun w => w <> [] /\ no_ws w) (split_ws_aux s cur).
Proof.
  induction s as [|c t IH]; intros cur Hcur; simpl.
  - destruct cur as [|x cur']; constructor; auto. split.
    + intros H. apply (f_equal (@length ascii)) in H. rewrite length_rev in H. discriminate.
    + apply Forall_rev. exact Hcur.
  - destruct (is_space c) eqn:Hc.
    + destruct cur as [|x cur']; [apply IH; constructor|].
      constructor; [|apply IH; constructor]. split.
      * intros H. apply (f_equal (@length ascii)) in H. rewrite length_rev in H. discriminate.
      * apply Forall_rev. exact Hcur.
    + apply IH. constructor; auto.
Qed.

Lemma join_cons_app : forall sep w ws, exists r, join sep (w :: ws) = w ++ r.
Proof. intros sep w [|w' ws]; [exists []; rewrite app_nil_r|eexists]; reflexivity. Qed.

Lemma join_in : forall sep ws c,
  In c (join sep ws) -> In c sep \/ exists w, In w ws /\ In c w.
Proof.
  intros sep. induction ws as [|w ws IH]; intros c H; simpl in H; [contradiction|].
  destruct ws as [|w' ws'].
  - right. exists w. simpl. auto.
  - apply in_app_or in H. destruct H as [H|H].
    + right. exists w. simpl. auto.
    + apply in_app_or in H. destruct H as [H|H]; [auto|].
      destruct (IH c H) as [H'|[w0 [Hw0 Hc]]]; [auto|].
      right. exists w0. simpl. auto.
Qed.

Lemma space_not_in_word : forall w, no_ws w -> ~ In sp w.
Proof.
  intros w Hw H. unfold no_ws in Hw. rewrite Forall_forall in Hw. specialize (Hw sp H). discriminate.
Qed.

Lemma join_no_double_space : forall ws,
  Forall (fun w => w <> [] /\ no_ws w) ws ->
  forall pre post, join [sp] ws <> pre ++ sp :: sp :: post.
Proof.
  induction ws as [|w ws IH]; intros Hws pre post Heq; simpl in Heq.
  - destruct pre; discriminate.
  - inversion Hws as [|? ? [Hw Hwn] Hrest]; subst.
    destruct ws as [|w' ws'].
    + apply (space_not_in_word w Hwn). rewrite Heq. apply in_or_app. simpl. auto.
    + inversion Hrest as [|? ? [Hw' Hwn'] _]; subst.
      destruct (join_cons_app [sp] w' ws') as [r Hr].
      rewrite Hr in Heq. simpl in Heq.
      apply app_eq_app in Heq. destruct Heq as [l [[H1 H2]|[H1 H2]]].
      * destruct l as [|x l'].
        -- simpl in H2. inversion H2 as [[H3]].
           destruct w' as [|y w'']; [congruence|]. simpl in H3. inversion H3; subst.
           inversion Hwn'. discriminate.
        -- simpl in H2. inversion H2; subst.
           apply (space_not_in_word (pre ++ sp :: l') Hwn). apply in_or_app. simpl. auto.
      * destruct l as [|x l'].
        -- simpl in H2. inversion H2 as [[H3]].
           destruct w' as [|y w'']; [congruence|]. simpl in H3. inversion H3; subst.
           inversion Hwn'. discriminate.
        -- simpl in H2. inversion H2 as [[Hx H4]]. subst.
           apply (IH Hrest l' post). rewrite Hr. simpl. exact H4.
Qed.

Lemma single_line_suffix : forall p s, single_line (p ++ s) -> single_line s.
Proof.
  intros p s [H1 [H2 H3]]. split; [|split].
  - intros H. apply H1. apply in_or_app. auto.
  - intros H. apply H2. apply in_or_app. auto.
  - intros pre post H. apply (H3 (p ++ pre) post). rewrite H, app_assoc. reflexivity.
Qed.

Lemma single_line_rev : forall s, single_line s -> single_line (rev s).
Proof.
  intros s [H1 [H2 H3]]. split; [|split].
  - rewrite <- in_rev. exact H1.
  - rewrite <- in_rev. exact H2.
  - intros pre post H. apply (H3 (rev post) (rev pre)).
    rewrite <- (rev_involutive s), H, rev_app_distr. simpl.
    rewrite <- !app_assoc. reflexivity.
Qed.

Lemma lstrip_suffix : forall s, exists p, s = p ++ lstrip s.
Proof.
  induction s as [|c t [p Hp]]; simpl; [exists []; reflexivity|].
  destruct (is_space c); [exists (c :: p); simpl; rewrite <- Hp; reflexivity|exists []; reflexivity].
Qed.

Lemma strip_single_line : forall s, single_line s -> single_line (strip s).
Proof.
  intros s H. unfold strip. apply single_line_rev.
  destruct (lstrip_suffix (rev (lstrip s))) as [p Hp].
  apply (single_line_suffix p). rewrite <- Hp. apply single_line_rev.
  destruct (lstrip_suffix s) as [q Hq].
  apply (single_line_suffix q). rewrite <- Hq. exact H.
Qed.

Lemma filter_short_words_single_line : forall n text,
  single_line (filter_short_words n text).
Proof.
  intros n text. unfold filter_short_words.
  assert (Hw : Forall (fun w => w <> [] /\ no_ws w)
                 (filter (fun word => (n <=? Z.of_nat (length word))%Z
                                      || mem_str (lower_str word) preserve) (split_ws text))).
  { pose proof (split_ws_aux_words text [] (Forall_nil _)) as Hs.
    rewrite Forall_forall in Hs |- *. intros w Hin. apply filter_In in Hin.
    apply Hs. apply Hin. }
  split; [|split].
  - intros H. apply join_in in H. destruct H as [[H|[]]|[w [Hin Hc]]]; [discriminate|].
    rewrite Forall_forall in Hw. destruct (Hw w Hin) as [_ Hn].
    unfold no_ws in Hn. rewrite Forall_forall in Hn. specialize (Hn nl Hc). discriminate.
  - intros H. apply join_in in H. destruct H as [[H|[]]|[w [Hin Hc]]]; [discriminate|].
    rewrite Forall_forall in Hw. destruct (Hw w Hin) as [_ Hn].
    unfold no_ws in Hn. rewrite Forall_forall in Hn. specialize (Hn tab Hc). discriminate.
  - apply join_no_double_space. exact Hw.
Qed.


Lemma cands_eqb_eq : forall l1 l2, cands_eqb l1 l2 = true -> l1 = l2.
Proof.
  induction l1 as [|[a1 b1] t1 IH]; intros [|[a2 b2] t2] H; simpl in H; try discriminate; auto.
  apply andb_prop in H as [H H3]. apply andb_prop in H as [H1 H2].
  apply Nat.eqb_eq in H1, H2. subst. f_equal. auto.
Qed.

Lemma re_search_some : forall r s,
  is_some (re_search r s) = true <-> exists k, k <= length s /\ matches_at r s k.
Proof.
  intros r s. pose proof (re_search_spec r s) as H.
  destruct (re_search r s) as [[k e]|]; simpl.
  - destruct H as [[Hl [Hm _]] _]. split; [intros _; exists k; auto|auto].
  - split; [discriminate|]. intros [k [Hk Hm]]. exfalso. exact (H k Hk Hm).
Qed.

Lemma extract_section_phase1 : forall min text sec t,
  phase1 min text (lower_str text) sec (sort_desc (find_candidates (lower_str text) sec)) = Some t ->
  extract_section min text sec = Some t.
Proof.
  intros min text sec t H. unfold extract_section.
  destruct (find_candidates (lower_str text) sec) as [|c cs]; [discriminate|].
  rewrite H. reflexivity.
Qed.

(** * The claims *)

(** C1: Phase 1 tries the candidates latest-in-document first (a stable
    sort of all start-pattern hits on descending start offset) and returns
    the trimmed span of the first candidate whose span meets the minimum
    length; on a document with a table-of-contents line "Item 1. Business
    ... 3" at offset 10 and the real header at offset 50000 followed by
    2000 characters of prose and "Item 1A.", item 1 is the prose after the
    offset-50000 header. *)
Theorem extract_section_latest_first :
  (forall min text sec,
     let tl := lower_str text in
     let sorted := sort_desc (find_candidates tl sec) in
     Sorted later_first sorted
     /\ Permutation (find_candidates tl sec) sorted
     /\ (forall t, phase1 min text tl sec sorted = Some t <->
           exists pre m post, sorted = pre ++ m :: post
             /\ Forall (fun m' => try_candidate min text tl sec m' = None) pre
             /\ try_candidate min text tl sec m = Some t)
     /\ (forall t, phase1 min text tl sec sorted = Some t -> extract_section min text sec = Some t))
  /\ firstn 22 (skipn 10 toc_doc) = str "Item 1. Business ... 3"
  /\ firstn 16 (skipn 50000 toc_doc) = str "Item 1. Business"
  /\ sort_desc (find_candidates (lower_str toc_doc) Item1)
     = [(50000, 50016); (50000, 50016); (10, 26); (10, 26)]
  /\ extract_section 1000 toc_doc Item1 = Some (strip (prose 2000)).
Proof.
  split; [|split; [|split; [|split]]].
  - intros min text sec tl sorted. split; [apply sort_desc_sorted|]. split; [apply sort_desc_perm|].
    split; [apply phase1_some|]. apply extract_section_phase1.
  - vm_compute. reflexivity.
  - vm_compute. reflexivity.
  - apply cands_eqb_eq. vm_compute. reflexivity.
  - vm_compute. reflexivity.
Qed.

(** C2 (counterexample): the end offset is not the nearest qualifying end
    match: with an "Item 2" header 600 characters after the start and an
    "Item 1A" header further on, the end of item 1 is at the "Item 1A"
    header (919), not at the nearer "Item 2" header (600). *)
Lemma find_end_not_nearest :
  find_end two_ends_doc (lower_str two_ends_doc) Item1 0 = 919
  /\ nearest_end_spec two_ends_doc (lower_str two_ends_doc) (section_end_patterns Item1) 0 = 600.
Proof. split; vm_compute; reflexivity. Qed.

(** C2 (as amended): the end of a Phase-1 span is given by the section's
    end patterns tried in their listed order, each through its leftmost
    match after the adjusted start only.  The first accepted match ends
    the span, even when a later pattern matches nearer; a match is
    accepted only if it lies at least 500 characters after the start, and
    a pattern is passed over only if it has no match after the start or
    its leftmost match lies at most 500 characters after it.  If no match
    is accepted, the span runs to the end of the document. *)
Theorem find_end_pattern_order :
  forall min text sec,
    let tl := lower_str text in
    (forall m, try_candidate min text tl sec m
               = validate min (slice text (cand_start text m)
                                     (find_end text tl sec (cand_start text m))))
    /\ forall start_pos,
         let suf := skipn start_pos tl in
         (exists pre p post k,
             section_end_patterns sec = pre ++ p :: post
             /\ Forall (no_far_match suf) pre
             /\ first_match_at p suf k /\ 500 <= k
             /\ find_end text tl sec start_pos = start_pos + k)
         \/ (Forall (no_far_match suf) (section_end_patterns sec)
             /\ find_end text tl sec start_pos = length text).
Proof.
  intros min text sec tl. split; [reflexivity|].
  intros start_pos suf. unfold find_end.
  destruct (end_loop_spec tl start_pos (section_end_patterns sec) (length text))
    as [[pre [p [post [k [H1 [H2 [H3 [H4 H5]]]]]]]]|H].
  - left. exists pre, p, post, k.
    refine (conj H1 (conj H2 (conj H3 (conj _ H5)))). lia.
  - right. exact H.
Qed.

(** C3 (counterexample): Phase 2 does not end at the first item marker
    lying at least 500 characters after the start: in a document whose
    only item-1 header is followed 100 characters later by an "Item 3"
    marker and, after 1400 more characters, by "Item 1A.", Phase 1 finds
    no span of 2000 characters, and Phase 2 ends the span at the end of
    the document (3567) rather than at the "Item 1A." marker (1544), so
    item 1 is found where a span ending at that marker would be too
    short. *)
Lemma phase2_end_not_first_far_marker :
  phase1 2000 early_marker_doc (lower_str early_marker_doc) Item1
         (sort_desc (find_candidates (lower_str early_marker_doc) Item1)) = None
  /\ phase2_end early_marker_doc (lower_str early_marker_doc) 17 = length early_marker_doc
  /\ length early_marker_doc = 3567
  /\ nearest_end_spec early_marker_doc (lower_str early_marker_doc) [any_item_marker] 17 = 1544
  /\ is_some (extract_section 2000 early_marker_doc Item1) = true
  /\ 1544 - 17 < 2000.
Proof.
  split; [vm_compute; reflexivity|]. split; [vm_compute; reflexivity|].
  split; [vm_compute; reflexivity|]. split; [vm_compute; reflexivity|].
  split; [vm_compute; reflexivity|]. lia.
Qed.

(** C3 (as amended): Phase 2 runs only when no candidate passes Phase 1;
    it takes the candidate with the smallest start offset and applies the
    same line skip.  It looks only at the first generic item marker after
    that start: the span ends either at this marker, which happens only if
    it lies at least 500 characters after the start, or at the end of the
    document, which happens only if there is no marker or it lies at most
    500 characters after the start.  The span is then subject to the same
    length test. *)
Theorem phase2_fallback : forall min text sec,
  let tl := lower_str text in
  let cands := find_candidates tl sec in
  cands <> [] ->
  phase1 min text tl sec (sort_desc cands) = None ->
  Forall (fun m => try_candidate min text tl sec m = None) cands
  /\ exists m, In m cands /\ (forall m', In m' cands -> fst m <= fst m')
     /\ extract_section min text sec
        = validate min (slice text (cand_start text m) (phase2_end text tl (cand_start text m)))
     /\ let suf := skipn (cand_start text m) tl in
        ((exists k, first_match_at any_item_marker suf k /\ 500 <= k
                    /\ phase2_end text tl (cand_start text m) = cand_start text m + k)
         \/ (no_far_match suf any_item_marker
             /\ phase2_end text tl (cand_start text m) = length text)).
Proof.
  intros min text sec tl cands Hne Hp1.
  pose proof (sort_desc_perm cands) as Hperm.
  split.
  - apply phase1_none in Hp1. rewrite Forall_forall in Hp1 |- *.
    intros m Hm. apply Hp1. apply (Permutation_in _ Hperm Hm).
  - unfold extract_section. fold tl. fold cands.
    destruct cands as [|c cs] eqn:Hc; [congruence|]. rewrite <- Hc in *.
    rewrite Hp1.
    destruct (sort_desc cands) as [|m0 rest] eqn:Hs.
    + apply Permutation_sym, Permutation_nil in Hperm. congruence.
    + destruct (min_start_aux_spec rest m0) as [Hin Hmin].
      exists (min_start_aux m0 rest). split; [|split; [|split]].
      * apply (Permutation_in _ (Permutation_sym Hperm) Hin).
      * intros m' Hm'. apply Hmin. apply (Permutation_in _ Hperm Hm').
      * reflexivity.
      * destruct (phase2_end_spec text tl (cand_start text (min_start_aux m0 rest)))
          as [[k [H1 [H2 H3]]]|H].
        -- left. exists k. refine (conj H1 (conj _ H3)). lia.
        -- right. exact H.
Qed.

Lemma phase2_fallback_witness :
  find_candidates (lower_str early_marker_doc) Item1 <> []
  /\ phase1 2000 early_marker_doc (lower_str early_marker_doc) Item1
       (sort_desc (find_candidates (lower_str early_marker_doc) Item1)) = None
  /\ Forall (fun m => try_candidate 2000 early_marker_doc (lower_str early_marker_doc) Item1 m = None)
       (find_candidates (lower_str early_marker_doc) Item1).
Proof.
  assert (H1 : find_candidates (lower_str early_marker_doc) Item1 <> [])
    by (vm_compute; discriminate).
  assert (H2 : phase1 2000 early_marker_doc (lower_str early_marker_doc) Item1
       (sort_desc (find_candidates (lower_str early_marker_doc) Item1)) = None)
    by (vm_compute; reflexivity).
  split; [exact H1|]. split; [exact H2|].
  exact (proj1 (phase2_fallback 2000 early_marker_doc Item1 H1 H2)).
Defined.

(** C4 (counterexample): the span does not begin at the start offset of
    the matched header: for "Item 1. Business " followed by prose on the
    same line, the header match is (0, 16) and the span begins at 16, the
    end of the match, not at 0. *)
Lemma cand_start_not_match_start :
  In (0, 16) (find_candidates (lower_str inline_header_doc) Item1)
  /\ cand_start inline_header_doc (0, 16) = 16
  /\ spec_cand_start inline_header_doc (0, 16) = 0.
Proof.
  split; [|split; vm_compute; reflexivity].
  assert (E : find_candidates (lower_str inline_header_doc) Item1 = [(0, 16); (0, 16)])
    by (apply cands_eqb_eq; vm_compute; reflexivity).
  rewrite E. left. reflexivity.
Qed.

(** C4 (as amended): a candidate records the start and the end offset of
    a header match, and its span begins at the END of that match, moved
    just past the next newline when one occurs within 200 characters of
    that end. *)
Theorem cand_start_after_match : forall text sec m,
  In m (find_candidates (lower_str text) sec) ->
  (exists p e, In p (section_patterns sec)
               /\ hd_error (mt p (pos_at (lower_str text) (fst m))) = Some e
               /\ idx e = snd m)
  /\ ((exists q, snd m <= q < snd m + 200 /\ nth_error text q = Some nl
                 /\ (forall j, snd m <= j < q -> nth_error text j <> Some nl)
                 /\ cand_start text m = S q)
      \/ ((forall j, snd m <= j < snd m + 200 -> nth_error text j <> Some nl)
          /\ cand_start text m = snd m)).
Proof.
  intros text sec [i j] Hin. split.
  - unfold find_candidates in Hin. apply in_flat_map in Hin as [p [Hp Hm]].
    destruct (finditer_spec p (lower_str text) i j Hm) as [e [He Hj]].
    exists p, e. auto.
  - unfold cand_start. apply skip_header_line_spec.
Qed.

Lemma cand_start_after_match_witness :
  In (0, 16) (find_candidates (lower_str inline_header_doc) Item1)
  /\ exists p e, In p (section_patterns Item1)
                 /\ hd_error (mt p (pos_at (lower_str inline_header_doc) 0)) = Some e
                 /\ idx e = 16.
Proof.
  assert (E : find_candidates (lower_str inline_header_doc) Item1 = [(0, 16); (0, 16)])
    by (apply cands_eqb_eq; vm_compute; reflexivity).
  assert (H : In (0, 16) (find_candidates (lower_str inline_header_doc) Item1))
    by (rewrite E; left; reflexivity).
  split; [exact H|].
  exact (proj1 (cand_start_after_match inline_header_doc Item1 (0, 16) H)).
Defined.

(** C5: a span is returned (trimmed of surrounding whitespace) only when
    its length before trimming is at least the minimum section length,
    and is discarded otherwise; with a minimum of 1000, a section of 999
    characters is absent and one of 1000 characters is present. *)
Theorem validate_min_length :
  (forall min st,
     (validate min st = Some (strip st) <-> (min <= Z.of_nat (length st))%Z)
     /\ (validate min st = None <-> (Z.of_nat (length st) < min)%Z))
  /\ find_candidates (lower_str (sized_doc 999)) Item1 = [(0, 16); (0, 16)]
  /\ length (slice (sized_doc 999) (cand_start (sized_doc 999) (0, 16))
                   (find_end (sized_doc 999) (lower_str (sized_doc 999)) Item1
                             (cand_start (sized_doc 999) (0, 16)))) = 999
  /\ extract_section 1000 (sized_doc 999) Item1 = None
  /\ find_candidates (lower_str (sized_doc 1000)) Item1 = [(0, 16); (0, 16)]
  /\ length (slice (sized_doc 1000) (cand_start (sized_doc 1000) (0, 16))
                   (find_end (sized_doc 1000) (lower_str (sized_doc 1000)) Item1
                             (cand_start (sized_doc 1000) (0, 16)))) = 1000
  /\ extract_section 1000 (sized_doc 1000) Item1 = Some (strip (prose 1000)).
Proof.
  split.
  - intros min st. unfold validate.
    destruct (Z.leb_spec min (Z.of_nat (length st))); split; split;
      intros; try discriminate; try reflexivity; lia.
  - split; [apply cands_eqb_eq; vm_compute; reflexivity|].
    split; [vm_compute; reflexivity|]. split; [vm_compute; reflexivity|].
    split; [apply cands_eqb_eq; vm_compute; reflexivity|].
    split; vm_compute; reflexivity.
Qed.



(** C7 (counterexample): a line of three numbers separated by single
    spaces is a table line as the spec words it, but the code keeps it
    when nothing follows the third number and drops it when a space
    does: the code's pattern [(\d+\s+){3,}] needs a whitespace run after
    each of the three digit runs. *)
Lemma years_row_kept :
  spec_table_line years_row = true
  /\ spec_table_line (years_row ++ [sp]) = true
  /\ is_table_line years_row = false
  /\ is_table_line (years_row ++ [sp]) = true
  /\ clean default_cleaner years_row = years_row
  /\ clean default_cleaner (years_row ++ [sp]) = [].
Proof. repeat split; vm_compute; reflexivity. Qed.

(** C8: cleaning is total: every configuration and every input text give
    an output text, and the empty text gives the empty text. *)
Theorem clean_total :
  (forall cfg text, exists out, clean cfg text = out)
  /\ (forall cfg, clean cfg [] = []).
Proof. split; [intros cfg text; exists (clean cfg text); reflexivity|reflexivity]. Qed.

(** C9: cleaning is not idempotent: some text cleaned twice differs from
    the text cleaned once. *)
Theorem clean_not_idempotent :
  exists x, clean default_cleaner (clean default_cleaner x) <> clean default_cleaner x.
Proof.
  exists (str "table x of contents"). vm_compute. discriminate.
Qed.

(** C10: the output of cleaning is a single line: it contains no newline
    and no tab, and no two consecutive spaces. *)
Theorem clean_single_line : forall cfg text, single_line (clean cfg text).
Proof.
  intros cfg [|c t].
  - split; [intros []|split; [intros []|]]. intros pre post H.
    destruct pre; discriminate.
  - simpl. apply strip_single_line. apply filter_short_words_single_line.
Qed.

(** * Further properties of the pipeline *)

(** ** Substrings and trimming *)

Lemma infix_refl : forall s, infix s s.
Proof. intros s. exists [], []. rewrite app_nil_r. reflexivity. Qed.

Lemma infix_trans : forall a b c, infix a b -> infix b c -> infix a c.
Proof.
  intros a b c [p [q Hb]] [p' [q' Hc]]. exists (p' ++ p), (q ++ q').
  subst. rewrite <- !app_assoc. reflexivity.
Qed.

Lemma slice_infix : forall s i j, infix (slice s i j) s.
Proof.
  intros s i j. unfold slice. exists (firstn i s), (skipn (j - i) (skipn i s)).
  rewrite firstn_skipn. symmetry. apply firstn_skipn.
Qed.

Lemma skipn_infix : forall (s : list ascii) i, infix (skipn i s) s.
Proof. intros s i. exists (firstn i s), []. rewrite app_nil_r. symmetry. apply firstn_skipn. Qed.

Lemma lstrip_head : forall s,
  match lstrip s with [] => True | c :: _ => is_space c = false end.
Proof.
  induction s as [|c t IH]; simpl; [exact I|].
  destruct (is_space c) eqn:Hc; [exact IH|exact Hc].
Qed.

Lemma lstrip_id : forall s,
  match s with [] => True | c :: _ => is_space c = false end -> lstrip s = s.
Proof. intros [|c t] H; simpl; [reflexivity|]. rewrite H. reflexivity. Qed.

Lemma lstrip_idem : forall s, lstrip (lstrip s) = lstrip s.
Proof. intros s. apply lstrip_id. apply lstrip_head. Qed.

Lemma strip_idem : forall s, strip (strip s) = strip s.
Proof.
  intros s. unfold strip. set (u := lstrip s). set (v := lstrip (rev u)).
  assert (Hv : lstrip (rev v) = rev v).
  { destruct (lstrip_suffix (rev u)) as [p Hp]. fold v in Hp.
    apply lstrip_id. destruct (rev v) as [|e w] eqn:Hrv; [exact I|].
    pose proof (lstrip_head s) as Hh. fold u in Hh.
    assert (Hu : u = rev (rev u)) by (rewrite rev_involutive; reflexivity).
    rewrite Hp, rev_app_distr, Hrv in Hu. simpl in Hu. rewrite Hu in Hh. exact Hh. }
  rewrite Hv, rev_involutive. unfold v. rewrite lstrip_idem. reflexivity.
Qed.

Lemma strip_infix : forall s, infix (strip s) s.
Proof.
  intros s. unfold strip.
  destruct (lstrip_suffix s) as [p Hp].
  destruct (lstrip_suffix (rev (lstrip s))) as [q Hq].
  set (w := lstrip (rev (lstrip s))) in *.
  assert (Hl : lstrip s = rev w ++ rev q)
    by (rewrite <- rev_app_distr, <- Hq, rev_involutive; reflexivity).
  exists p, (rev q). rewrite Hp at 1. rewrite Hl. reflexivity.
Qed.

Lemma validate_some : forall min st t,
  validate min st = Some t -> t = strip st /\ (min <= Z.of_nat (length st))%Z.
Proof.
  intros min st t. unfold validate. destruct (Z.leb_spec min (Z.of_nat (length st))) as [Hle|Hlt]; intros H;
    [inversion H; auto|discriminate].
Qed.

(** [_extract_section] returns a trimmed span of the text that starts at the
    adjusted start of one of its header matches and whose untrimmed length
    reaches the minimum *)
Lemma extract_section_span : forall min text sec t,
  extract_section min text sec = Some t ->
  exists m j, In m (find_candidates (lower_str text) sec)
    /\ t = strip (slice text (cand_start text m) j)
    /\ (min <= Z.of_nat (length (slice text (cand_start text m) j)))%Z.
Proof.
  intros min text sec t. unfold extract_section.
  set (tl := lower_str text). set (cands := find_candidates tl sec).
  pose proof (sort_desc_perm cands) as Hperm.
  destruct cands as [|c cs] eqn:Hc; [discriminate|]. rewrite <- Hc in *.
  destruct (phase1 min text tl sec (sort_desc cands)) as [t1|] eqn:H1.
  - intros Heq. inversion Heq; subst t1.
    apply phase1_some in H1. destruct H1 as [pre [m [post [Hl [_ Hm]]]]].
    unfold try_candidate in Hm. apply validate_some in Hm as [-> Hmin].
    exists m, (find_end text tl sec (cand_start text m)). split; [|auto].
    apply (Permutation_in _ (Permutation_sym Hperm)). rewrite Hl. apply in_or_app. simpl. auto.
  - destruct (sort_desc cands) as [|m0 rest] eqn:Hs; [discriminate|].
    simpl. intros Hm. apply validate_some in Hm as [-> Hmin].
    destruct (min_start_aux_spec rest m0) as [Hin _].
    exists (min_start_aux m0 rest), (phase2_end text tl (cand_start text (min_start_aux m0 rest))).
    split; [|auto]. exact (Permutation_in _ (Permutation_sym Hperm) Hin).
Qed.

(** X1: [_extract_section] returns [None] when no start header of the
    section occurs in the lower-cased text.  A section it returns is
    already stripped and occurs in the text as a substring: it is the
    stripped span from the adjusted start of one of the header matches to
    some end, and that span before stripping is at least
    [min_section_length] characters long. *)
Theorem extract_section_result : forall min text sec,
  (find_candidates (lower_str text) sec = [] -> extract_section min text sec = None)
  /\ forall t, extract_section min text sec = Some t ->
     strip t = t /\ infix t text
     /\ exists m j, In m (find_candidates (lower_str text) sec)
          /\ t = strip (slice text (cand_start text m) j)
          /\ (min <= Z.of_nat (length (slice text (cand_start text m) j)))%Z.
Proof.
  intros min text sec. split.
  - intros H. unfold extract_section. rewrite H. reflexivity.
  - intros t Ht. pose proof (extract_section_span min text sec t Ht) as Hs.
    destruct Hs as [m [j [Hin [Ht' Hmin]]]]. split; [|split].
    + rewrite Ht'. apply strip_idem.
    + rewrite Ht'. eapply infix_trans; [apply strip_infix|apply slice_infix].
    + exists m, j. auto.
Qed.

(** ** The 10-K document *)

Lemma text_of_block_infix : forall doc, infix (text_of_block doc) doc.
Proof.
  intros doc. unfold text_of_block.
  destruct (re_search text_re doc) as [m|]; [apply slice_infix|].
  destruct (re_search header_end_re doc) as [[_ e]|]; [apply skipn_infix|apply infix_refl].
Qed.

Lemma max_len_aux_in : forall l best, In (max_len_aux best l) (best :: l).
Proof.
  induction l as [|x t IH]; intros best; simpl; [auto|].
  destruct (length best <? length x).
  - destruct (IH x) as [H|H]; auto.
  - destruct (IH best) as [H|H]; auto.
Qed.

Lemma first_10k_in : forall docs t,
  first_10k docs = Some t -> exists d, In d docs /\ t = text_of_block d.
Proof.
  induction docs as [|d ds IH]; intros t H; simpl in H; [discriminate|].
  destruct (re_search type_re d).
  - inversion H. exists d. simpl. auto.
  - destruct (IH t H) as [d' [Hd Ht]]. exists d'. simpl. auto.
Qed.

(** X2: [_extract_10k_document] always returns a substring of its input,
    and returns the input unchanged when it contains neither
    ["<SEC-DOCUMENT>"] nor ["<DOCUMENT>"]. *)
Theorem extract_10k_document_infix : forall content,
  infix (extract_10k_document content) content
  /\ (contains (str "<SEC-DOCUMENT>") content = false ->
      contains (str "<DOCUMENT>") content = false ->
      extract_10k_document content = content).
Proof.
  intros content. split.
  - unfold extract_10k_document.
    destruct (negb (contains (str "<SEC-DOCUMENT>") content)
              && negb (contains (str "<DOCUMENT>") content)); [apply infix_refl|].
    assert (Hdocs : forall d, In d (map (inner content 10 11) (finditer document_re content)) ->
                              infix d content).
    { intros d Hd. apply in_map_iff in Hd. destruct Hd as [m [<- _]]. apply slice_infix. }
    destruct (map (inner content 10 11) (finditer document_re content)) as [|d0 ds] eqn:Hm.
    + destruct (finditer (lit_i "<document>") content) as [|[_ e] _];
        [apply infix_refl|apply skipn_infix].
    + destruct (first_10k (d0 :: ds)) as [t|] eqn:Hf.
      * destruct (first_10k_in _ _ Hf) as [d [Hd ->]].
        eapply infix_trans; [apply text_of_block_infix|]. apply Hdocs. exact Hd.
      * assert (Hl : infix (max_len_aux d0 ds) content) by (apply Hdocs, max_len_aux_in).
        destruct (re_search text_re (max_len_aux d0 ds)) as [m|]; [|exact Hl].
        eapply infix_trans; [apply slice_infix|exact Hl].
  - intros H1 H2. unfold extract_10k_document. rewrite H1, H2. reflexivity.
Qed.

(** ** Filenames *)

Lemma metadata_re_classes : metadata_re = seqs (map RClass metadata_classes).
Proof. reflexivity. Qed.

Lemma mt_class_at : forall p s k,
  mt (RClass p) (pos_at s k)
  = match skipn k s with
    | c :: _ => if p c then [pos_at s (S k)] else []
    | [] => []
    end.
Proof.
  intros p s k. cbn [mt]. change (after (pos_at s k)) with (skipn k s).
  destruct (skipn k s) as [|c t] eqn:Hs; [reflexivity|].
  destruct (p c); [|reflexivity]. rewrite (adv_pos_at s k c t Hs). reflexivity.
Qed.

Lemma classes_mt : forall ps s k, ps <> [] ->
  mt (seqs (map RClass ps)) (pos_at s k)
  = if classes_ok ps (skipn k s) then [pos_at s (k + length ps)] else [].
Proof.
  induction ps as [|p ps IH]; intros s k Hne; [congruence|].
  destruct ps as [|p2 ps'].
  - change (mt (RClass p) (pos_at s k) = if classes_ok [p] (skipn k s)
                                          then [pos_at s (k + 1)] else []).
    rewrite mt_class_at. destruct (skipn k s) as [|c t]; [reflexivity|].
    simpl. destruct (p c); [|reflexivity]. rewrite Nat.add_1_r. reflexivity.
  - change (flat_map (mt (seqs (map RClass (p2 :: ps')))) (mt (RClass p) (pos_at s k))
            = if classes_ok (p :: p2 :: ps') (skipn k s)
              then [pos_at s (k + length (p :: p2 :: ps'))] else []).
    rewrite mt_class_at. destruct (skipn k s) as [|c t] eqn:Hs; [reflexivity|].
    change (classes_ok (p :: p2 :: ps') (c :: t)) with (p c && classes_ok (p2 :: ps') t).
    destruct (p c); cbn [andb]; [|reflexivity].
    cbn [flat_map]. rewrite app_nil_r.
    assert (Ht : skipn (S k) s = t) by (apply (skipn_cons_firstn s k c t Hs)).
    rewrite (IH s (S k) ltac:(discriminate)), Ht.
    destruct (classes_ok (p2 :: ps') t); [|reflexivity].
    do 2 f_equal. simpl. lia.
Qed.

Lemma classes_ok_app : forall ps1 ps2 l1 l2, length ps1 = length l1 ->
  classes_ok (ps1 ++ ps2) (l1 ++ l2) = classes_ok ps1 l1 && classes_ok ps2 l2.
Proof.
  induction ps1 as [|p ps1 IH]; intros ps2 [|c l1] l2 H; simpl in *; try discriminate; auto.
  rewrite IH by lia. apply andb_assoc.
Qed.

Lemma classes_ok_repeat : forall p l,
  Forall (fun c => p c = true) l -> classes_ok (repeat p (length l)) l = true.
Proof. intros p l H. induction H as [|c l Hc Hl IH]; simpl; auto. rewrite Hc, IH. reflexivity. Qed.

Lemma classes_ok_repeat_inv : forall p n ps l,
  classes_ok (repeat p n ++ ps) l = true ->
  length (firstn n l) = n /\ Forall (fun c => p c = true) (firstn n l)
  /\ classes_ok ps (skipn n l) = true.
Proof.
  intros p. induction n as [|n IH]; intros ps l H; simpl in *; [auto|].
  destruct l as [|c l]; [discriminate|]. apply andb_prop in H as [Hc H].
  destruct (IH ps l H) as [H1 [H2 H3]]. simpl. auto.
Qed.

Lemma digit_code : forall c, is_digit c = true -> (48 <= Z.of_N (code c) <= 57)%Z.
Proof.
  intros c H. unfold is_digit, in_range in H. apply andb_prop in H as [H1 H2].
  apply N.leb_le in H1, H2. lia.
Qed.

Lemma digits_value_bound : forall l acc,
  Forall (fun c => is_digit c = true) l -> (0 <= acc)%Z ->
  (0 <= fold_left (fun acc c => acc * 10 + (Z.of_N (code c) - 48)) l acc
     < (acc + 1) * 10 ^ Z.of_nat (length l))%Z.
Proof.
  induction l as [|c l IH]; intros acc Hl Ha; cbn [fold_left length].
  - simpl. lia.
  - inversion Hl as [|? ? Hc Hr]; subst. pose proof (digit_code c Hc).
    specialize (IH (acc * 10 + (Z.of_N (code c) - 48))%Z Hr ltac:(lia)).
    rewrite Nat2Z.inj_succ, Z.pow_succ_r by lia.
    assert (Hp : (0 < 10 ^ Z.of_nat (length l))%Z) by (apply Z.pow_pos_nonneg; lia).
    split; [lia|]. eapply Z.lt_le_trans; [apply IH|]. nia.
Qed.

(** X3: for a ten-digit CIK and a four-digit year, a file name that
    starts with [CIK_YEAR_10K] gives back that CIK and the integer value of
    that year, whatever follows. *)
Theorem extract_metadata_round_trip : forall cik year rest,
  length cik = 10 -> Forall (fun c => is_digit c = true) cik ->
  length year = 4 -> Forall (fun c => is_digit c = true) year ->
  extract_metadata_from_filename (cik ++ us :: year ++ str "_10K" ++ rest)
  = (Some cik, Some (digits_value year)).
Proof.
  intros cik year rest Hc Hcd Hy Hyd.
  set (name := cik ++ us :: year ++ str "_10K" ++ rest).
  assert (Hok : classes_ok metadata_classes name = true).
  { unfold metadata_classes, name. rewrite <- Hc.
    rewrite classes_ok_app by (rewrite repeat_length; reflexivity).
    rewrite classes_ok_repeat by exact Hcd. cbn [andb classes_ok app].
    rewrite <- Hy. rewrite classes_ok_app by (rewrite repeat_length; reflexivity).
    rewrite classes_ok_repeat by exact Hyd. reflexivity. }
  assert (H0 : matches_at metadata_re name 0).
  { unfold matches_at. rewrite metadata_re_classes, classes_mt by discriminate.
    simpl skipn. rewrite Hok. discriminate. }
  unfold extract_metadata_from_filename.
  pose proof (re_search_spec metadata_re name) as Hs.
  destruct (re_search metadata_re name) as [[k e]|].
  - destruct Hs as [[_ [_ Hmin]] _].
    destruct k as [|k]; [|exfalso; exact (Hmin 0 ltac:(lia) H0)].
    change (slice name 0 (0 + 10)) with (firstn 10 name).
    change (slice name (0 + 11) (0 + 15)) with (firstn 4 (skipn 11 name)). unfold name.
    replace (skipn 11 (cik ++ us :: year ++ str "_10K" ++ rest)) with (year ++ str "_10K" ++ rest)
      by (rewrite skipn_app, (skipn_all2 cik) by lia; rewrite Hc; reflexivity).
    rewrite !firstn_app, Hc, Hy, !Nat.sub_diag, !firstn_O, !app_nil_r.
    rewrite <- Hc, firstn_all, <- Hy, firstn_all.
    reflexivity.
  - exfalso. exact (Hs 0 ltac:(lia) H0).
Qed.

(** X4: [extract_metadata_from_filename] returns either [(None, None)] or
    a ten-digit CIK string together with a year between 0 and 9999. *)
Theorem extract_metadata_shape : forall filename,
  extract_metadata_from_filename filename = (None, None)
  \/ exists cik year, extract_metadata_from_filename filename = (Some cik, Some year)
       /\ length cik = 10 /\ Forall (fun c => is_digit c = true) cik
       /\ (0 <= year <= 9999)%Z.
Proof.
  intros filename. unfold extract_metadata_from_filename.
  pose proof (re_search_spec metadata_re filename) as Hs.
  destruct (re_search metadata_re filename) as [[k e]|]; [|auto].
  right. destruct Hs as [[Hk [Hm _]] _].
  unfold matches_at in Hm. rewrite metadata_re_classes, classes_mt in Hm by discriminate.
  destruct (classes_ok metadata_classes (skipn k filename)) eqn:Hok; [|congruence].
  unfold metadata_classes in Hok.
  apply classes_ok_repeat_inv in Hok as [Hl1 [Hd1 Hok]].
  destruct (skipn 10 (skipn k filename)) as [|u l] eqn:Hu; [discriminate|].
  cbn [classes_ok app] in Hok. apply andb_prop in Hok as [_ Hok].
  apply classes_ok_repeat_inv in Hok as [Hl2 [Hd2 _]].
  exists (slice filename k (k + 10)), (digits_value (slice filename (k + 11) (k + 15))).
  assert (E1 : slice filename k (k + 10) = firstn 10 (skipn k filename))
    by (unfold slice; f_equal; lia).
  assert (E2 : slice filename (k + 11) (k + 15) = firstn 4 l).
  { unfold slice. replace (k + 15 - (k + 11)) with 4 by lia.
    replace (k + 11) with (1 + (10 + k)) by lia.
    rewrite <- !skipn_skipn, Hu. reflexivity. }
  rewrite E1, E2. split; [reflexivity|]. split; [exact Hl1|]. split; [exact Hd1|].
  unfold digits_value. pose proof (digits_value_bound (firstn 4 l) 0 Hd2 ltac:(lia)) as Hb.
  rewrite Hl2 in Hb. change ((0 + 1) * 10 ^ Z.of_nat 4)%Z with 10000%Z in Hb. lia.
Qed.

(** ** Lines *)

Lemma split_on_nonempty : forall x s, split_on x s <> [].
Proof.
  intros x [|c t]; simpl; [discriminate|].
  destruct (Ascii.eqb c x); [discriminate|]. destruct (split_on x t); discriminate.
Qed.

Lemma split_on_cons_ne : forall x c t, Ascii.eqb c x = false ->
  exists w ws, split_on x t = w :: ws /\ split_on x (c :: t) = (c :: w) :: ws.
Proof.
  intros x c t Hc. simpl. rewrite Hc.
  destruct (split_on x t) as [|w ws] eqn:Hs; [exfalso; exact (split_on_nonempty x t Hs)|].
  exists w, ws. auto.
Qed.

Lemma split_on_chars : forall x s w c, In w (split_on x s) -> In c w -> In c s /\ c <> x.
Proof.
  intros x. induction s as [|a t IH]; intros w c Hw Hc.
  - simpl in Hw. destruct Hw as [<-|[]]. destruct Hc.
  - destruct (Ascii.eqb a x) eqn:Ha.
    + simpl in Hw. rewrite Ha in Hw. destruct Hw as [<-|Hw]; [destruct Hc|].
      destruct (IH w c Hw Hc). simpl. auto.
    + destruct (split_on_cons_ne x a t Ha) as [w0 [ws [H1 H2]]]. rewrite H2 in Hw.
      destruct Hw as [<-|Hw].
      * destruct Hc as [<-|Hc].
        -- split; [simpl; auto|]. intros ->. rewrite Ascii.eqb_refl in Ha. discriminate.
        -- destruct (IH w0 c ltac:(rewrite H1; simpl; auto) Hc). simpl. auto.
      * destruct (IH w c ltac:(rewrite H1; simpl; auto) Hc). simpl. auto.
Qed.

Lemma split_on_app_sep : forall x a b,
  split_on x (a ++ x :: b) = split_on x a ++ split_on x b.
Proof.
  intros x. induction a as [|c a IH]; intros b; simpl.
  - rewrite Ascii.eqb_refl. reflexivity.
  - destruct (Ascii.eqb c x); [rewrite IH; reflexivity|].
    rewrite IH. destruct (split_on x a) as [|w ws] eqn:Hs;
      [exfalso; exact (split_on_nonempty x a Hs)|]. reflexivity.
Qed.

Lemma split_on_noin : forall x w, ~ In x w -> split_on x w = [w].
Proof.
  intros x. induction w as [|c t IH]; intros H; simpl; [reflexivity|].
  destruct (Ascii.eqb_spec c x) as [->|Hne]; [exfalso; apply H; simpl; auto|].
  rewrite IH; [reflexivity|]. intros Hin. apply H. simpl. auto.
Qed.

Lemma split_join : forall x l, l <> [] -> Forall (fun w => ~ In x w) l ->
  split_on x (join [x] l) = l.
Proof.
  intros x. induction l as [|w l IH]; intros Hne Hl; [congruence|].
  inversion Hl as [|? ? Hw Hr]; subst.
  destruct l as [|w' l'].
  - simpl. apply split_on_noin. exact Hw.
  - change (join [x] (w :: w' :: l')) with (w ++ [x] ++ join [x] (w' :: l')).
    change ([x] ++ join [x] (w' :: l')) with (x :: join [x] (w' :: l')).
    rewrite split_on_app_sep, split_on_noin by exact Hw.
    rewrite IH by (auto; discriminate). reflexivity.
Qed.

Lemma join_split : forall x s, join [x] (split_on x s) = s.
Proof.
  intros x. induction s as [|c t IH]; [reflexivity|].
  destruct (Ascii.eqb c x) eqn:Hc.
  - apply Ascii.eqb_eq in Hc. subst c. simpl. rewrite Ascii.eqb_refl.
    destruct (split_on x t) as [|w ws] eqn:Hs; [exfalso; exact (split_on_nonempty x t Hs)|].
    rewrite <- IH. reflexivity.
  - destruct (split_on_cons_ne x c t Hc) as [w [ws [H1 H2]]]. rewrite H2.
    rewrite H1 in IH. destruct ws as [|w' ws']; simpl in *; rewrite IH; reflexivity.
Qed.

Lemma filter_all : forall {A} (f : A -> bool) l, Forall (fun a => f a = true) l -> filter f l = l.
Proof. intros A f l H. induction H as [|a l Ha Hl IH]; simpl; [reflexivity|]. rewrite Ha, IH. reflexivity. Qed.

Lemma filter_no_sep : forall x f s, Forall (fun w => ~ In x w) (filter f (split_on x s)).
Proof.
  intros x f s. rewrite Forall_forall. intros w Hw Hc. apply filter_In in Hw as [Hw _].
  destruct (split_on_chars x s w x Hw Hc) as [_ H]. congruence.
Qed.

(** ** Table lines *)

(** X5: no line of the output of [_remove_tables] is a table line. *)
Theorem remove_tables_no_table_line : forall text,
  Forall (fun line => is_table_line line = false) (split_on nl (remove_tables_ text)).
Proof.
  intros text. apply Forall_forall. intros line. unfold remove_tables_.
  destruct (filter (fun line => negb (is_table_line line)) (split_on nl text)) as [|w ws] eqn:Hk.
  - simpl. intros [<-|[]]. reflexivity.
  - rewrite split_join by (discriminate || (rewrite <- Hk; apply filter_no_sep)).
    rewrite <- Hk. intros H. apply filter_In in H as [_ H]. destruct (is_table_line line); auto.
Qed.

(** X6: [_remove_tables] is idempotent. *)
Theorem remove_tables_idem : forall text, remove_tables_ (remove_tables_ text) = remove_tables_ text.
Proof.
  intros text.
  assert (Hr : remove_tables_ text
    = join [nl] (filter (fun line => negb (is_table_line line)) (split_on nl text))) by reflexivity.
  rewrite Hr.
  destruct (filter (fun line => negb (is_table_line line)) (split_on nl text)) as [|w ws] eqn:Hk.
  - reflexivity.
  - unfold remove_tables_. rewrite split_join by (discriminate || (rewrite <- Hk; apply filter_no_sep)).
    rewrite filter_all; [reflexivity|]. rewrite <- Hk. rewrite Forall_forall. intros l Hl.
    apply filter_In in Hl. apply Hl.
Qed.

(** ** The blank-line limit *)

Lemma limit_blank_incl : forall m c l w, In w (limit_blank m c l) -> In w l.
Proof.
  intros m c l. revert c. induction l as [|line rest IH]; intros c w H; simpl in H; [contradiction|].
  destruct line as [|a t].
  - destruct ((c + 1 <=? m)%Z).
    + destruct H as [<-|H]; [simpl; auto|]. right. eapply IH. exact H.
    + right. eapply IH. exact H.
  - destruct H as [<-|H]; [simpl; auto|]. right. eapply IH. exact H.
Qed.

Lemma limit_blank_nonempty : forall m c l,
  filter nonempty_line (limit_blank m c l) = filter nonempty_line l.
Proof.
  intros m c l. revert c. induction l as [|line rest IH]; intros c; simpl; [reflexivity|].
  destruct line as [|a t].
  - destruct ((c + 1 <=? m)%Z); simpl; apply IH.
  - simpl. rewrite IH. reflexivity.
Qed.

Lemma limit_blank_runs : forall m l c, (0 <= c)%Z ->
  (forall pre post, limit_blank m c l <> pre ++ repeat [] (S (Z.to_nat m)) ++ post)
  /\ (forall j post, limit_blank m c l = repeat [] j ++ post -> j = 0 \/ (c + Z.of_nat j <= m)%Z).
Proof.
  intros m. induction l as [|line rest IH]; intros c Hc; simpl.
  - split.
    + intros pre post H. destruct pre; discriminate.
    + intros j post H. destruct j; [auto|discriminate].
  - destruct line as [|a t].
    + destruct (Z.leb_spec (c + 1) m) as [Hle|Hgt].
      * destruct (IH (c + 1)%Z ltac:(lia)) as [H1 H2]. split.
        -- intros pre post H. destruct pre as [|p pre'].
           ++ simpl in H. inversion H as [Ht]. destruct (H2 _ _ Ht) as [Hz|Hz]; lia.
           ++ inversion H as [[Hp Ht]]. exact (H1 pre' post Ht).
        -- intros j post H. destruct j as [|j]; [auto|]. right.
           simpl in H. inversion H as [Ht]. destruct (H2 _ _ Ht) as [Hz|Hz]; lia.
      * destruct (IH (c + 1)%Z ltac:(lia)) as [H1 H2]. split; [exact H1|].
        intros j post H. destruct (H2 j post H) as [Hz|Hz]; lia.
    + destruct (IH 0%Z ltac:(lia)) as [H1 H2]. split.
      * intros pre post H. destruct pre as [|p pre'].
        -- simpl in H. discriminate.
        -- inversion H as [[Hp Ht]]. exact (H1 pre' post Ht).
      * intros j post H. destruct j as [|j]; [auto|]. discriminate.
Qed.

(** X7: the blank-line loop of [_normalize_whitespace] keeps every
    non-empty line, in order, and (started with no pending blank line) never
    outputs more than [max_consecutive_newlines] empty lines in a row. *)
Theorem limit_blank_spec : forall m,
  (forall c l, filter nonempty_line (limit_blank m c l) = filter nonempty_line l)
  /\ (forall l pre post, limit_blank m 0 l <> pre ++ repeat [] (S (Z.to_nat m)) ++ post).
Proof.
  intros m. split; [apply limit_blank_nonempty|].
  intros l. apply (limit_blank_runs m l 0 ltac:(lia)).
Qed.

(** ** Substitution *)

Lemma wf_after : forall s z, wf_at s z -> after z = skipn (idx z) s.
Proof. intros s z [Hz _]. rewrite Hz at 1. reflexivity. Qed.

Lemma wf_adv : forall s e c t, wf_at s e -> after e = c :: t -> wf_at s (adv e c t).
Proof.
  intros s e c t He Ha. pose proof (wf_after s e He) as Hae. destruct He as [He Hl].
  assert (Hsk : skipn (idx e) s = c :: t) by (rewrite <- Hae; exact Ha).
  pose proof (skipn_cons_lt s (idx e) c t Hsk).
  rewrite He, (adv_pos_at s (idx e) c t Hsk). split; [reflexivity|simpl; lia].
Qed.

Lemma skipn_in_mono : forall (s : list ascii) i j c, i <= j -> In c (skipn j s) -> In c (skipn i s).
Proof.
  intros s i j c Hij H. rewrite <- (firstn_skipn (j - i) (skipn i s)).
  apply in_or_app. right. rewrite skipn_skipn. replace (j - i + i) with j by lia. exact H.
Qed.

Lemma firstn_in : forall (l : list ascii) n c, In c (firstn n l) -> In c l.
Proof. intros l n c H. rewrite <- (firstn_skipn n l). apply in_or_app. auto. Qed.

Lemma search_pos_wf : forall r s z b e, wf_at s z -> search_pos r z = Some (b, e) ->
  idx z <= idx b /\ wf_at s b /\ In e (mt r b) /\ wf_at s e /\ idx b <= idx e.
Proof.
  intros r s z b e Hz Hs. pose proof (search_pos_spec r s z Hz) as H. rewrite Hs in H.
  destruct H as [Hzb [Hb [Hh _]]].
  assert (Hin : In e (mt r b)) by (destruct (mt r b); [discriminate|]; inversion Hh; subst; left; reflexivity).
  destruct (mt_wf s r b e Hb Hin). auto.
Qed.

Lemma sub_aux_chars : forall r repl s fuel z c, wf_at s z ->
  In c (sub_aux fuel r repl z) -> In c (after z) \/ In c repl.
Proof.
  intros r repl s. induction fuel as [|k IH]; intros z c Hz H; simpl in H; [auto|].
  destruct (search_pos r z) as [[b e]|] eqn:Hs; [|auto].
  destruct (search_pos_wf r s z b e Hz Hs) as [Hzb [Hb [Hin [He Hbe]]]].
  assert (Hmono : forall c, In c (after e) -> In c (after z)).
  { intros c' Hc'. rewrite (wf_after s z Hz). rewrite (wf_after s e He) in Hc'.
    apply (skipn_in_mono s (idx z) (idx e)); [lia|exact Hc']. }
  apply in_app_or in H. destruct H as [H|H]; [left; eapply firstn_in; exact H|].
  apply in_app_or in H. destruct H as [H|H]; [auto|].
  destruct (idx b <? idx e).
  - destruct (IH e c He H) as [H'|H']; [left; apply Hmono; exact H'|right; exact H'].
  - destruct (after e) as [|c0 t] eqn:Ha; [contradiction|].
    pose proof (wf_adv s e c0 t He Ha) as Hadv.
    destruct H as [<-|H]; [left; apply Hmono; left; reflexivity|].
    destruct (IH (adv e c0 t) c Hadv H) as [H'|H']; [|right; exact H'].
    left. apply Hmono. right. exact H'.
Qed.

Lemma re_sub_chars : forall r repl s c, In c (re_sub r repl s) -> In c s \/ In c repl.
Proof. intros r repl s c H. exact (sub_aux_chars r repl s _ (start_pos s) c (start_pos_wf s) H). Qed.

Lemma sub_aux_length : forall r repl s,
  (forall b e, wf_at s b -> In e (mt r b) -> length repl <= idx e - idx b) ->
  forall fuel z, wf_at s z -> length (sub_aux fuel r repl z) <= length (after z).
Proof.
  intros r repl s Hr. induction fuel as [|k IH]; intros z Hz; simpl; [lia|].
  destruct (search_pos r z) as [[b e]|] eqn:Hs; [|lia].
  destruct (search_pos_wf r s z b e Hz Hs) as [Hzb [Hb [Hin [He Hbe]]]].
  pose proof (Hr b e Hb Hin) as Hrep.
  pose proof (wf_after s z Hz) as Haz. pose proof (wf_after s e He) as Hae.
  destruct He as [_ Hel].
  assert (Hlz : length (after z) = length s - idx z) by (rewrite Haz, length_skipn; reflexivity).
  assert (Hle : length (after e) = length s - idx e) by (rewrite Hae, length_skipn; reflexivity).
  rewrite !length_app, length_firstn.
  destruct (Nat.ltb_spec (idx b) (idx e)).
  - destruct (search_pos_wf r s z b e Hz Hs) as [_ [_ [_ [He' _]]]].
    pose proof (IH e He'). lia.
  - destruct (after e) as [|c0 t] eqn:Ha; simpl.
    + simpl in Hle. lia.
    + destruct (search_pos_wf r s z b e Hz Hs) as [_ [_ [_ [He' _]]]].
      pose proof (IH (adv e c0 t) (wf_adv s e c0 t He' Ha)). simpl in Hle |- *. simpl in H0. lia.
Qed.

Lemma re_sub_length : forall r repl s,
  (forall b e, wf_at s b -> In e (mt r b) -> length repl <= idx e - idx b) ->
  length (re_sub r repl s) <= length s.
Proof. intros r repl s Hr. exact (sub_aux_length r repl s Hr _ (start_pos s) (start_pos_wf s)). Qed.

Lemma re_sub_nil_length : forall r s, length (re_sub r [] s) <= length s.
Proof. intros r s. apply re_sub_length. intros. simpl. lia. Qed.

Lemma class_first : forall s p r b e, wf_at s b -> In e (mt (RSeq (RClass p) r) b) ->
  length [sp] <= idx e - idx b.
Proof.
  intros s p r b e Hb He. simpl in He. apply in_flat_map in He. destruct He as [z' [Hz' He]].
  destruct (after b) as [|c t] eqn:Ha; [contradiction|].
  destruct (p c); [|contradiction]. destruct Hz' as [<-|[]].
  destruct (mt_wf s r (adv b c t) e (wf_adv s b c t Hb Ha) He) as [_ H]. simpl in H |- *. lia.
Qed.

(** ** Lengths of line and word lists *)

Lemma infix_length : forall a b, infix a b -> length a <= length b.
Proof. intros a b [p [q ->]]. rewrite !length_app. lia. Qed.

Lemma strip_length : forall s, length (strip s) <= length s.
Proof. intros s. apply infix_length, strip_infix. Qed.

Lemma join_length : forall x l, length (join [x] l) <= length (concat l) + length l - 1.
Proof.
  intros x. induction l as [|w l IH]; [simpl; lia|].
  destruct l as [|w' l']; [simpl; rewrite app_nil_r; lia|].
  change (join [x] (w :: w' :: l')) with (w ++ [x] ++ join [x] (w' :: l')).
  change (concat (w :: w' :: l')) with (w ++ concat (w' :: l')).
  rewrite !length_app in *. cbn [length] in *. lia.
Qed.

Lemma split_on_weight : forall x s,
  length (concat (split_on x s)) + length (split_on x s) = length s + 1.
Proof.
  intros x. induction s as [|c t IH]; [reflexivity|].
  destruct (Ascii.eqb c x) eqn:Hc.
  - simpl. rewrite Hc. simpl. lia.
  - destruct (split_on_cons_ne x c t Hc) as [w [ws [H1 H2]]]. rewrite H2. rewrite H1 in IH.
    simpl in *. rewrite length_app in *. lia.
Qed.

Lemma filter_weight : forall (f : list ascii -> bool) l,
  length (concat (filter f l)) + length (filter f l) <= length (concat l) + length l.
Proof.
  intros f. induction l as [|w l IH]; simpl; [lia|].
  destruct (f w); simpl; rewrite !length_app; lia.
Qed.

Lemma limit_blank_weight : forall m l c,
  length (concat (limit_blank m c l)) + length (limit_blank m c l) <= length (concat l) + length l.
Proof.
  intros m. induction l as [|w l IH]; intros c; simpl; [lia|].
  destruct w as [|a t].
  - destruct ((c + 1 <=? m)%Z); simpl; specialize (IH (c + 1)%Z); lia.
  - simpl. rewrite !length_app. specialize (IH 0%Z). simpl. lia.
Qed.

Lemma map_strip_weight : forall l,
  length (concat (map strip l)) + length (map strip l) <= length (concat l) + length l.
Proof.
  induction l as [|w l IH]; simpl; [lia|]. rewrite !length_app. pose proof (strip_length w). lia.
Qed.

Lemma split_ws_aux_weight : forall s cur,
  length (concat (split_ws_aux s cur)) + length (split_ws_aux s cur) <= length s + length cur + 1.
Proof.
  induction s as [|c t IH]; intros cur.
  - destruct cur as [|a cur']; [simpl; lia|]. cbn [split_ws_aux concat length].
    rewrite app_nil_r, length_rev. cbn [length]. lia.
  - cbn [split_ws_aux]. destruct (is_space c).
    + destruct cur as [|a cur']; [specialize (IH []); cbn [length] in *; lia|].
      cbn [concat length]. rewrite length_app, length_rev. specialize (IH []). cbn [length] in *. lia.
    + specialize (IH (c :: cur)). cbn [length] in *. lia.
Qed.

Lemma sub_all_length : forall repl pats,
  Forall (fun r => forall s b e, wf_at s b -> In e (mt r b) -> length repl <= idx e - idx b) pats ->
  forall s, length (sub_all pats repl s) <= length s.
Proof.
  intros repl pats Hp. unfold sub_all. induction Hp as [|r pats Hr Hps IH]; intros s; simpl; [lia|].
  pose proof (IH (re_sub r repl s)). pose proof (re_sub_length r repl s (Hr s)). lia.
Qed.

Lemma remove_html_artifacts_length : forall text, length (remove_html_artifacts text) <= length text.
Proof.
  intros text. apply sub_all_length.
  repeat constructor; intros s b e Hb He; eapply class_first; eassumption.
Qed.

Lemma remove_boilerplate_length : forall text, length (remove_boilerplate text) <= length text.
Proof.
  intros text. apply sub_all_length.
  repeat constructor; intros s b e Hb He; simpl; lia.
Qed.

Lemma remove_headers_footers_length : forall text, length (remove_headers_footers text) <= length text.
Proof.
  intros text. unfold remove_headers_footers.
  pose proof (re_sub_nil_length page_number_re text).
  pose proof (re_sub_nil_length form_10k_re (re_sub page_number_re [] text)).
  pose proof (re_sub_nil_length date_line_re (re_sub form_10k_re [] (re_sub page_number_re [] text))).
  lia.
Qed.

Lemma remove_tables_length : forall text, length (remove_tables_ text) <= length text.
Proof.
  intros text. unfold remove_tables_.
  pose proof (join_length nl (filter (fun line => negb (is_table_line line)) (split_on nl text))).
  pose proof (filter_weight (fun line => negb (is_table_line line)) (split_on nl text)).
  pose proof (split_on_weight nl text). lia.
Qed.

Lemma normalize_whitespace_length : forall m text, length (normalize_whitespace_ m text) <= length text.
Proof.
  intros m text. unfold normalize_whitespace_. cbv zeta.
  set (y := map (fun c => if Ascii.eqb c tab then sp else c) text).
  set (x := re_sub sp2 [sp] y).
  assert (Hx : length x <= length y).
  { apply re_sub_length. intros b e Hb He. eapply class_first; eassumption. }
  assert (Hy : length y = length text) by apply length_map.
  pose proof (join_length nl (limit_blank m 0 (map strip (split_on nl x)))).
  pose proof (limit_blank_weight m (map strip (split_on nl x)) 0).
  pose proof (map_strip_weight (split_on nl x)).
  pose proof (split_on_weight nl x). lia.
Qed.

Lemma filter_short_words_length : forall n text, length (filter_short_words n text) <= length text.
Proof.
  intros n text. unfold filter_short_words.
  set (f := fun word => (n <=? Z.of_nat (length word))%Z || mem_str (lower_str word) preserve).
  pose proof (join_length sp (filter f (split_ws text))).
  pose proof (filter_weight f (split_ws text)).
  pose proof (split_ws_aux_weight text []). unfold split_ws in *. simpl in *. lia.
Qed.

(** X11: [clean] never makes a text longer, whatever the configuration. *)
Theorem clean_length : forall cfg text, length (clean cfg text) <= length text.
Proof.
  intros cfg text. destruct text as [|c t]; [simpl; lia|].
  unfold clean. cbv zeta. set (t0 := c :: t).
  eapply Nat.le_trans; [apply strip_length|].
  eapply Nat.le_trans; [apply filter_short_words_length|].
  eapply Nat.le_trans; [destruct (normalize_whitespace cfg); [apply normalize_whitespace_length|apply le_n]|].
  eapply Nat.le_trans; [destruct (remove_headers cfg); [apply remove_headers_footers_length|apply le_n]|].
  eapply Nat.le_trans; [destruct (remove_tables cfg); [apply remove_tables_length|apply le_n]|].
  eapply Nat.le_trans; [apply remove_boilerplate_length|].
  apply remove_html_artifacts_length.
Qed.

(** ** Whitespace normalisation *)

(** X8: the output of [_normalize_whitespace] contains no tab, each of
    its lines is stripped, and unless the output is empty it has no run of
    more than [max_consecutive_newlines] consecutive empty lines. *)
Theorem normalize_whitespace_spec : forall m text,
  let out := normalize_whitespace_ m text in
  ~ In tab out
  /\ (forall line, In line (split_on nl out) -> strip line = line)
  /\ (out = [] \/ forall pre post, split_on nl out <> pre ++ repeat [] (S (Z.to_nat m)) ++ post).
Proof.
  intros m text out. unfold out, normalize_whitespace_. cbv zeta.
  set (y := map (fun c => if Ascii.eqb c tab then sp else c) text).
  set (x := re_sub sp2 [sp] y).
  set (L := limit_blank m 0 (map strip (split_on nl x))).
  assert (HL : forall w, In w L -> exists v, In v (split_on nl x) /\ w = strip v).
  { intros w Hw. apply limit_blank_incl in Hw. apply in_map_iff in Hw.
    destruct Hw as [v [<- Hv]]. eauto. }
  assert (HnoL : Forall (fun w => ~ In nl w) L).
  { rewrite Forall_forall. intros w Hw Hin. destruct (HL w Hw) as [v [Hv ->]].
    destruct (strip_infix v) as [p [q Hpq]].
    assert (Hin' : In nl v) by (rewrite Hpq; apply in_or_app; right; apply in_or_app; left; exact Hin).
    destruct (split_on_chars nl x v nl Hv Hin') as [_ Hne]. congruence. }
  split; [|split].
  - intros Hin. apply join_in in Hin. destruct Hin as [Hin|[w [Hw Hin]]].
    + destruct Hin as [H|[]]. discriminate.
    + destruct (HL w Hw) as [v [Hv ->]].
      destruct (strip_infix v) as [p [q Hpq]].
      assert (Hin' : In tab v) by (rewrite Hpq; apply in_or_app; right; apply in_or_app; left; exact Hin).
      destruct (split_on_chars nl x v tab Hv Hin') as [Hx _].
      apply re_sub_chars in Hx. destruct Hx as [Hy|[H|[]]]; [|discriminate].
      apply in_map_iff in Hy. destruct Hy as [c [Hc _]].
      destruct (Ascii.eqb_spec c tab) as [Heq|Hne]; [discriminate|congruence].
  - destruct L as [|w ws] eqn:HLe.
    + simpl. intros line [<-|[]]. reflexivity.
    + rewrite split_join by (discriminate || exact HnoL). intros line Hline.
      destruct (HL line Hline) as [v [_ ->]]. apply strip_idem.
  - destruct L as [|w ws] eqn:HLe; [left; reflexivity|right].
    rewrite split_join by (discriminate || exact HnoL). rewrite <- HLe.
    apply (limit_blank_runs m _ 0 ltac:(lia)).
Qed.

(** ** Words *)

Lemma split_ws_aux_word : forall w s cur, no_ws w ->
  split_ws_aux (w ++ s) cur = split_ws_aux s (rev w ++ cur).
Proof.
  induction w as [|c w IH]; intros s cur Hw; [reflexivity|].
  inversion Hw as [|? ? Hc Hw']; subst. simpl. rewrite Hc, IH by exact Hw'.
  rewrite <- app_assoc. reflexivity.
Qed.

Lemma split_ws_join : forall ws, Forall (fun w => w <> [] /\ no_ws w) ws ->
  split_ws (join [sp] ws) = ws.
Proof.
  unfold split_ws. induction ws as [|w ws IH]; intros H; [reflexivity|].
  inversion H as [|? ? [Hne Hw] Hr]; subst.
  destruct ws as [|w' ws'].
  - simpl join. rewrite <- (app_nil_r w) at 1. rewrite split_ws_aux_word by exact Hw.
    rewrite app_nil_r. destruct (rev w) as [|a r] eqn:Hrw.
    + exfalso. apply Hne. rewrite <- (rev_involutive w), Hrw. reflexivity.
    + cbn [split_ws_aux]. rewrite <- Hrw, rev_involutive. reflexivity.
  - change (join [sp] (w :: w' :: ws')) with (w ++ sp :: join [sp] (w' :: ws')).
    rewrite split_ws_aux_word by exact Hw. rewrite app_nil_r. cbn [split_ws_aux]. replace (is_space sp) with true by reflexivity.
    destruct (rev w) as [|a r] eqn:Hrw.
    + exfalso. apply Hne. rewrite <- (rev_involutive w), Hrw. reflexivity.
    + rewrite <- Hrw, rev_involutive, IH by exact Hr. reflexivity.
Qed.

Lemma split_ws_aux_spaces : forall q cur, Forall (fun c => is_space c = true) q ->
  split_ws_aux q cur = split_ws_aux [] cur.
Proof.
  induction q as [|c q IH]; intros cur Hq; [reflexivity|].
  inversion Hq as [|? ? Hc Hq']; subst. simpl. rewrite Hc.
  destruct cur; rewrite (IH [] Hq'); reflexivity.
Qed.

Lemma split_ws_aux_trail : forall p q cur, Forall (fun c => is_space c = true) q ->
  split_ws_aux (p ++ q) cur = split_ws_aux p cur.
Proof.
  induction p as [|c p IH]; intros q cur Hq; [apply split_ws_aux_spaces; exact Hq|].
  simpl. destruct (is_space c); [destruct cur|]; rewrite IH by exact Hq; reflexivity.
Qed.

Lemma lstrip_spaces : forall s, exists p, s = p ++ lstrip s /\ Forall (fun c => is_space c = true) p.
Proof.
  induction s as [|c t [p [Hp Hs]]]; simpl; [exists []; auto|].
  destruct (is_space c) eqn:Hc; [exists (c :: p); simpl; rewrite <- Hp; auto|exists []; auto].
Qed.

Lemma split_ws_lstrip : forall s, split_ws (lstrip s) = split_ws s.
Proof.
  unfold split_ws. induction s as [|c t IH]; [reflexivity|]. simpl.
  destruct (is_space c) eqn:Hc; [exact IH|simpl; rewrite Hc; reflexivity].
Qed.

(** [str.split()] does not see the whitespace that [str.strip()] removes *)
Lemma split_ws_strip : forall s, split_ws (strip s) = split_ws s.
Proof.
  intros s. rewrite <- (split_ws_lstrip s). unfold strip. set (u := lstrip s).
  destruct (lstrip_spaces (rev u)) as [p [Hp Hs]].
  assert (Hu : u = rev (lstrip (rev u)) ++ rev p)
    by (rewrite <- rev_app_distr, <- Hp, rev_involutive; reflexivity).
  unfold split_ws. rewrite Hu at 2. rewrite split_ws_aux_trail; [reflexivity|].
  apply Forall_rev. exact Hs.
Qed.

Lemma filter_short_words_words : forall n text,
  split_ws (filter_short_words n text) = filter (keep_word n) (split_ws text).
Proof.
  intros n text. unfold filter_short_words. apply split_ws_join.
  pose proof (split_ws_aux_words text [] (Forall_nil _)) as Hw. rewrite Forall_forall in Hw |- *.
  intros w Hin. apply filter_In in Hin. exact (Hw w (proj1 Hin)).
Qed.

Lemma clean_words_eq : forall cfg text,
  split_ws (clean cfg text)
  = match text with
    | [] => []
    | _ :: _ =>
        let text := remove_boilerplate (remove_html_artifacts text) in
        let text := if remove_tables cfg then remove_tables_ text else text in
        let text := if remove_headers cfg then remove_headers_footers text else text in
        let text := if normalize_whitespace cfg
                    then normalize_whitespace_ (max_consecutive_newlines cfg) text else text in
        filter (keep_word (min_word_length cfg)) (split_ws text)
    end.
Proof.
  intros cfg [|c t]; [reflexivity|]. unfold clean. cbv zeta.
  rewrite split_ws_strip, filter_short_words_words. reflexivity.
Qed.

Lemma split_ws_aux_sep : forall x a b cur, is_space x = true ->
  split_ws_aux (a ++ x :: b) cur = split_ws_aux a cur ++ split_ws_aux b [].
Proof.
  intros x. induction a as [|c a IH]; intros b cur Hx; simpl.
  - rewrite Hx. destruct cur; reflexivity.
  - destruct (is_space c); [destruct cur|]; rewrite IH by exact Hx; reflexivity.
Qed.

Lemma split_ws_join_nl : forall L, split_ws (join [nl] L) = concat (map split_ws L).
Proof.
  induction L as [|w L IH]; [reflexivity|].
  destruct L as [|w' L']; [simpl; rewrite app_nil_r; reflexivity|].
  change (join [nl] (w :: w' :: L')) with (w ++ nl :: join [nl] (w' :: L')).
  unfold split_ws at 1. rewrite split_ws_aux_sep by reflexivity. fold (split_ws w).
  fold (split_ws (join [nl] (w' :: L'))). rewrite IH. reflexivity.
Qed.

Lemma limit_blank_words : forall m L c,
  concat (map split_ws (limit_blank m c L)) = concat (map split_ws L).
Proof.
  intros m. induction L as [|w L IH]; intros c; [reflexivity|]. simpl.
  destruct w as [|a t]; [destruct ((c + 1 <=? m)%Z); simpl; apply IH|].
  simpl. rewrite IH. reflexivity.
Qed.

(** the words of [_normalize_whitespace]'s result do not depend on the
    limit on blank lines *)
Lemma normalize_whitespace_words : forall m1 m2 text,
  split_ws (normalize_whitespace_ m1 text) = split_ws (normalize_whitespace_ m2 text).
Proof.
  intros m1 m2 text. unfold normalize_whitespace_. cbv zeta.
  rewrite !split_ws_join_nl, !limit_blank_words. reflexivity.
Qed.

Lemma filter_filter_impl : forall {A} (f g : A -> bool) l,
  (forall a, f a = true -> g a = true) -> filter f (filter g l) = filter f l.
Proof.
  intros A f g l H. induction l as [|a l IH]; [reflexivity|]. simpl.
  destruct (g a) eqn:Hg; simpl; rewrite IH; [reflexivity|].
  destruct (f a) eqn:Hf; [rewrite (H a Hf) in Hg; discriminate|reflexivity].
Qed.

(** X13: the words of [clean_text(text, aggressive=True)] are the words
    of [clean_text(text)] that have at least three characters or are in
    the preserved list, in order. *)
Theorem clean_text_aggressive_words : forall text,
  split_ws (clean_text text true) = filter (keep_word 3) (split_ws (clean_text text false)).
Proof.
  intros text. unfold clean_text. rewrite !clean_words_eq.
  destruct text as [|c t]; [reflexivity|]. cbn [remove_tables remove_headers normalize_whitespace
    min_word_length max_consecutive_newlines default_cleaner]. cbv zeta.
  rewrite (normalize_whitespace_words 1 2), filter_filter_impl; [reflexivity|].
  intros w. unfold keep_word. rewrite !orb_true_iff, !Z.leb_le. intros [H|H]; [left; lia|right; exact H].
Qed.

(** ** Already processed files *)

Lemma mem_str_In : forall w l, mem_str w l = true <-> In w l.
Proof.
  intros w l. unfold mem_str. rewrite existsb_exists. split.
  - intros [p [Hp Heq]]. destruct (list_eq_dec ascii_dec w p); [subst; exact Hp|discriminate].
  - intros H. exists w. split; [exact H|]. destruct (list_eq_dec ascii_dec w w); [reflexivity|congruence].
Qed.

Lemma lookup_add_found : forall b base sec d,
  lookup_found b (add_found base sec d)
  = if list_eq_dec ascii_dec base b
    then Some (match lookup_found b d with
               | Some found => if mem_str sec found then found else found ++ [sec]
               | None => [sec]
               end)
    else lookup_found b d.
Proof.
  intros b base sec. induction d as [|[k found] rest IH]; simpl.
  - destruct (list_eq_dec ascii_dec base b); reflexivity.
  - destruct (list_eq_dec ascii_dec k base) as [->|Hkb]; simpl.
    + destruct (list_eq_dec ascii_dec base b); reflexivity.
    + destruct (list_eq_dec ascii_dec k b) as [->|Hk]; [|exact IH].
      destruct (list_eq_dec ascii_dec base b); [congruence|reflexivity].
Qed.

Lemma add_found_keys : forall k base sec d,
  In k (map fst (add_found base sec d)) -> k = base \/ In k (map fst d).
Proof.
  intros k base sec. induction d as [|[k0 found] rest IH]; simpl; intros H.
  - destruct H as [H|[]]. auto.
  - destruct (list_eq_dec ascii_dec k0 base); simpl in H; [tauto|].
    destruct H as [H|H]; [auto|]. destruct (IH H); auto.
Qed.

Lemma add_found_nodup : forall base sec d,
  NoDup (map fst d) -> NoDup (map fst (add_found base sec d)).
Proof.
  intros base sec. induction d as [|[k found] rest IH]; simpl; intros H.
  - constructor; [intros []|constructor].
  - inversion H as [|? ? Hk Hr]; subst.
    destruct (list_eq_dec ascii_dec k base); simpl; [exact H|].
    constructor; [|exact (IH Hr)].
    intros Hin. destruct (add_found_keys k base sec rest Hin); auto.
Qed.

Lemma lookup_in : forall d b found, NoDup (map fst d) ->
  (In (b, found) d <-> lookup_found b d = Some found).
Proof.
  induction d as [|[k f] rest IH]; intros b found Hd; simpl; [split; [intros []|discriminate]|].
  inversion Hd as [|? ? Hk Hr]; subst.
  destruct (list_eq_dec ascii_dec k b) as [->|Hkb]; split.
  - intros [H|H]; [inversion H; reflexivity|].
    exfalso. apply Hk. apply (in_map fst) in H. exact H.
  - intros H. inversion H. auto.
  - intros [H|H]; [inversion H; congruence|]. apply IH; auto.
  - intros H. right. apply IH; auto.
Qed.

Lemma fold_found_spec : forall L d0,
  let d := fold_left (fun d name => add_found (stem_base (stem name)) (stem_section (stem name)) d) L d0 in
  NoDup (map fst d0) ->
  NoDup (map fst d)
  /\ forall b,
     (lookup_found b d = None <-> lookup_found b d0 = None /\ ~ exists n, In n L /\ stem_base (stem n) = b)
     /\ forall found, lookup_found b d = Some found -> forall s,
          In s found <-> (exists f0, lookup_found b d0 = Some f0 /\ In s f0)
                         \/ exists n, In n L /\ stem_base (stem n) = b /\ stem_section (stem n) = s.
Proof.
  induction L as [|n L IH]; intros d0 d Hd0.
  - subst d. simpl. split; [exact Hd0|]. intros b. split.
    + split; [intros H; split; [exact H|intros [n [[] _]]]|tauto].
    + intros found H s. split; [intros Hs; left; eauto|].
      intros [[f0 [Hf0 Hs]]|[n [[] _]]]. rewrite H in Hf0. inversion Hf0. subst. exact Hs.
  - simpl in d. set (d1 := add_found (stem_base (stem n)) (stem_section (stem n)) d0) in d.
    destruct (IH d1 (add_found_nodup _ _ d0 Hd0)) as [Hnd Hb]. split; [exact Hnd|].
    intros b. destruct (Hb b) as [Hnone Hsome]. fold d in Hnone, Hsome.
    unfold d1 in Hnone, Hsome. rewrite lookup_add_found in Hnone, Hsome. split.
    + rewrite Hnone. destruct (list_eq_dec ascii_dec (stem_base (stem n)) b) as [Hnb|Hnb].
      * split; [intros [H _]; discriminate|].
        intros [_ H]. exfalso. apply H. exists n. simpl. auto.
      * split.
        -- intros [H1 H2]. split; [exact H1|]. intros [n' [[<-|Hn'] Hb']]; [congruence|].
           apply H2. eauto.
        -- intros [H1 H2]. split; [exact H1|]. intros [n' [Hn' Hb']]. apply H2. exists n'. simpl. auto.
    + intros found Hf s. rewrite (Hsome found Hf s).
      destruct (list_eq_dec ascii_dec (stem_base (stem n)) b) as [Hnb|Hnb].
      * split.
        -- intros [[f0 [Hf0 Hs]]|[n' [Hn' [Hb' Hs']]]].
           ++ inversion Hf0 as [Heq]. clear Hf0. subst f0.
              destruct (lookup_found b d0) as [f1|] eqn:Hl.
              ** destruct (mem_str (stem_section (stem n)) f1) eqn:Hm; [left; eauto|].
                 apply in_app_or in Hs. destruct Hs as [Hs|[Hs|[]]]; [left; eauto|].
                 right. exists n. simpl. auto.
              ** destruct Hs as [Hs|[]]. right. exists n. simpl. auto.
           ++ right. exists n'. simpl. auto.
        -- intros [[f0 [Hf0 Hs]]|[n' [[<-|Hn'] [Hb' Hs']]]].
           ++ left. rewrite Hf0. eexists. split; [reflexivity|].
              destruct (mem_str (stem_section (stem n)) f0); [exact Hs|]. apply in_or_app. auto.
           ++ left. eexists. split; [reflexivity|].
              destruct (lookup_found b d0) as [f1|] eqn:Hl; [|simpl; auto].
              destruct (mem_str (stem_section (stem n)) f1) eqn:Hm.
              ** subst s. apply mem_str_In. exact Hm.
              ** subst s. apply in_or_app. simpl. auto.
           ++ right. eauto.
      * split.
        -- intros [H|[n' [Hn' Hr]]]; [auto|]. right. exists n'. simpl. auto.
        -- intros [H|[n' [[<-|Hn'] [Hb' Hs']]]]; [auto|congruence|]. right. eauto.
Qed.

Lemma nodup_map_filter : forall {A B} (f : A -> B) (p : A -> bool) l,
  NoDup (map f l) -> NoDup (map f (filter p l)).
Proof.
  intros A B f p. induction l as [|a l IH]; simpl; intros H; [constructor|].
  inversion H as [|? ? Ha Hl]; subst. destruct (p a); simpl; [|auto].
  constructor; [|auto]. intros Hin. apply Ha.
  apply in_map_iff in Hin. destruct Hin as [x [<- Hx]]. apply filter_In in Hx.
  apply in_map. apply Hx.
Qed.

Lemma get_processed_files_members : forall names secs,
  NoDup (get_processed_files (Some names) secs)
  /\ forall b, In b (get_processed_files (Some names) secs) <->
     (exists n, In n names /\ fullmatch item_file_re n = true /\ stem_base (stem n) = b)
     /\ forall s, In s secs ->
          exists n, In n names /\ fullmatch item_file_re n = true
                    /\ stem_base (stem n) = b /\ stem_section (stem n) = s.
Proof.
  intros names secs. unfold get_processed_files.
  set (L := filter (fullmatch item_file_re) names).
  destruct (fold_found_spec L [] (NoDup_nil _)) as [Hnd Hb].
  set (d := fold_left _ L []) in Hnd, Hb |- *.
  assert (HL : forall n, In n L <-> In n names /\ fullmatch item_file_re n = true)
    by (intros n; apply filter_In).
  split; [apply nodup_map_filter; exact Hnd|].
  intros b. destruct (Hb b) as [Hnone Hsome]. split.
  - intros Hin. apply in_map_iff in Hin. destruct Hin as [[b' found] [Heq Hin]]. simpl in Heq. subst b'.
    apply filter_In in Hin. destruct Hin as [Hin Hall]. simpl in Hall.
    apply (lookup_in d b found Hnd) in Hin.
    split.
    + destruct (existsb (fun n => if list_eq_dec ascii_dec (stem_base (stem n)) b then true else false) L)
        eqn:He.
      * apply existsb_exists in He. destruct He as [n [Hn Hbn]].
        destruct (list_eq_dec ascii_dec (stem_base (stem n)) b) as [Hbn'|]; [|discriminate].
        apply HL in Hn. exists n. tauto.
      * assert (Hno : lookup_found b d = None); [|congruence].
        apply Hnone. split; [reflexivity|]. intros [n [Hn Hbn]].
        assert (Hc : existsb (fun n => if list_eq_dec ascii_dec (stem_base (stem n)) b then true else false) L = true).
        { apply existsb_exists. exists n. split; [exact Hn|].
          destruct (list_eq_dec ascii_dec (stem_base (stem n)) b); [reflexivity|congruence]. }
        congruence.
    + intros s Hs. rewrite forallb_forall in Hall. specialize (Hall s Hs). apply mem_str_In in Hall.
      apply (Hsome found Hin s) in Hall. destruct Hall as [[f0 [Hf0 _]]|[n [Hn Hr]]]; [discriminate|].
      apply HL in Hn. exists n. tauto.
  - intros [[n [Hn [Hm Hbn]]] Hall].
    destruct (lookup_found b d) as [found|] eqn:Hl.
    + apply in_map_iff. exists (b, found). split; [reflexivity|].
      apply filter_In. split; [apply (lookup_in d b found Hnd); exact Hl|].
      simpl. apply forallb_forall. intros s Hs. apply mem_str_In.
      apply (Hsome found eq_refl s). right.
      destruct (Hall s Hs) as [n' [Hn' [Hm' Hr]]]. exists n'. split; [apply HL; auto|exact Hr].
    + exfalso. apply (proj1 (Hb b)) in Hl. destruct Hl as [_ Hl]. apply Hl. exists n. split; [apply HL; auto|exact Hbn].
Qed.

(** ** Output file names *)

Lemma start_pos_at : forall s, start_pos s = pos_at s 0.
Proof. intros s. unfold start_pos, pos_at. simpl. rewrite Nat.sub_0_r. reflexivity. Qed.

Lemma pos_at_wf : forall s k, k <= length s -> wf_at s (pos_at s k).
Proof. intros s k Hk. split; [reflexivity|exact Hk]. Qed.

Lemma skipn_len_app : forall {A} (p r : list A) n, n = length p -> skipn n (p ++ r) = r.
Proof. intros A p r n ->. induction p as [|c p IH]; [reflexivity|exact IH]. Qed.

Lemma firstn_len_app : forall {A} (p r : list A) n, n = length p -> firstn n (p ++ r) = p.
Proof. intros A p r n ->. induction p as [|c p IH]; [reflexivity|simpl; rewrite IH; reflexivity]. Qed.

Lemma star_any_char : forall s fuel z k, wf_at s z -> idx z <= k <= length s -> k - idx z < fuel ->
  In (pos_at s k) (star_iter (mt any_char) fuel z).
Proof.
  intros s. induction fuel as [|f IH]; intros z k Hz Hk Hf; [lia|].
  cbn [star_iter]. apply in_or_app.
  destruct (Nat.eq_dec k (idx z)) as [->|Hne].
  - right. left. exact (proj1 Hz).
  - left. pose proof (wf_after s z Hz) as Ha.
    destruct (after z) as [|c t] eqn:Hat.
    + exfalso. symmetry in Ha. apply skipn_nil_ge in Ha; [lia|exact (proj2 Hz)].
    + change (mt any_char z) with (match after z with c :: t => [adv z c t] | [] => [] end).
      rewrite Hat. cbn [flat_map]. rewrite app_nil_r.
      replace (idx z <? idx (adv z c t)) with true by (symmetry; apply Nat.ltb_lt; simpl; lia).
      apply IH; [exact (wf_adv s z c t Hz Hat)|simpl; lia|simpl; lia].
Qed.

Lemma star_any_char_mt : forall s i k, i <= k <= length s ->
  In (pos_at s k) (mt (RStar any_char) (pos_at s i)).
Proof.
  intros s i k Hk. cbn [mt]. apply star_any_char; [apply pos_at_wf; lia| |];
    change (idx (pos_at s i)) with i; [lia|].
  change (rem (pos_at s i)) with (length s - i). lia.
Qed.

Lemma lit_mt : forall w s k rest, skipn k s = w ++ rest ->
  In (pos_at s (k + length w)) (mt (fold_right (fun x r => RSeq (chr x) r) REps w) (pos_at s k)).
Proof.
  induction w as [|x w IH]; intros s k rest H.
  - simpl. rewrite Nat.add_0_r. auto.
  - cbn [fold_right mt]. unfold chr. rewrite mt_class_at. rewrite H. cbn [app].
    rewrite Ascii.eqb_refl. cbn [flat_map]. rewrite app_nil_r.
    replace (k + length (x :: w)) with (S k + length w) by (simpl; lia).
    apply (IH s (S k) rest). apply (skipn_cons_firstn s k x (w ++ rest) H).
Qed.

Lemma fullmatch_item : forall p q,
  fullmatch item_file_re (p ++ str "_item_" ++ q ++ str ".txt") = true.
Proof.
  intros p q. set (s := p ++ str "_item_" ++ q ++ str ".txt").
  assert (Hlen : length s = length p + 6 + length q + 4)
    by (unfold s; rewrite !length_app; simpl; lia).
  unfold fullmatch. apply existsb_exists. exists (pos_at s (length s)).
  split; [|apply Nat.eqb_eq; reflexivity].
  rewrite start_pos_at.
  change (mt item_file_re (pos_at s 0))
    with (flat_map (mt (RSeq (lit "_item_") (RSeq (RStar any_char) (lit ".txt"))))
                   (mt (RStar any_char) (pos_at s 0))).
  apply in_flat_map. exists (pos_at s (length p)).
  split; [apply star_any_char_mt; lia|].
  cbn [mt]. apply in_flat_map. exists (pos_at s (length p + 6)).
  split.
  { apply (lit_mt (str "_item_") s (length p) (q ++ str ".txt")).
    exact (skipn_len_app p (str "_item_" ++ q ++ str ".txt") _ eq_refl). }
  apply in_flat_map. exists (pos_at s (length p + 6 + length q)).
  split; [apply star_any_char_mt; lia|].
  replace (length s) with (length p + 6 + length q + length (str ".txt")) by (rewrite Hlen; reflexivity).
  apply (lit_mt (str ".txt") s _ []). rewrite app_nil_r.
  unfold s. rewrite !app_assoc. apply skipn_len_app.
  rewrite !length_app. simpl. lia.
Qed.

Lemma rfind_aux_app : forall x l1 l2 i f,
  rfind_aux x (l1 ++ l2) i f = rfind_aux x l2 (i + length l1) (rfind_aux x l1 i f).
Proof.
  intros x. induction l1 as [|c l1 IH]; intros l2 i f; simpl; [rewrite Nat.add_0_r; reflexivity|].
  rewrite IH. replace (S i + length l1) with (i + S (length l1)) by lia. reflexivity.
Qed.

Lemma rfind_aux_noin : forall x l i f, ~ In x l -> rfind_aux x l i f = f.
Proof.
  intros x. induction l as [|c l IH]; intros i f H; [reflexivity|]. simpl.
  destruct (Ascii.eqb_spec c x) as [->|Hne]; [exfalso; apply H; left; reflexivity|].
  apply IH. intros Hin. apply H. right. exact Hin.
Qed.

(** [PurePath.stem] drops the last suffix when the name has one *)
Lemma stem_suffix : forall pre ext, pre <> [] -> ext <> [] -> ~ In "."%char ext ->
  stem (pre ++ "."%char :: ext) = pre.
Proof.
  intros pre ext Hp He Hx. unfold stem.
  change ("."%char :: ext) with (["."%char] ++ ext).
  rewrite !rfind_aux_app, rfind_aux_noin by exact Hx. simpl.
  destruct pre as [|c pre']; [congruence|]. destruct ext as [|e ext']; [congruence|].
  rewrite length_app. simpl.
  destruct (Nat.ltb_spec (S (length pre')) (length pre' + S (S (length ext')) - 0)) as [_|H]; [|lia].
  f_equal. exact (firstn_len_app pre' _ _ eq_refl).
Qed.

Lemma section_names_cases : forall sec, In sec section_names ->
  sec = str "item_1" \/ sec = str "item_1a" \/ sec = str "item_7".
Proof. intros sec H. simpl in H. destruct H as [H|[H|[H|[]]]]; subst; [left|right; left|right; right]; reflexivity. Qed.

Lemma section_file_parts : forall base sec, In sec section_names ->
  fullmatch item_file_re (section_file base sec) = true
  /\ stem (section_file base sec) = base ++ [us] ++ sec
  /\ stem_base (stem (section_file base sec)) = base
  /\ stem_section (stem (section_file base sec)) = sec.
Proof.
  intros base sec Hsec.
  assert (Hst : stem (section_file base sec) = base ++ [us] ++ sec).
  { unfold section_file.
    replace (base ++ [us] ++ sec ++ str ".txt") with ((base ++ [us] ++ sec) ++ "."%char :: str "txt")
      by (rewrite <- !app_assoc; reflexivity).
    apply stem_suffix; [destruct base; discriminate|discriminate|].
    simpl. intuition discriminate. }
  assert (Hsplit : exists x y, split_on us sec = [x; y] /\ join [us] [x; y] = sec
                     /\ (exists q, sec = str "item_" ++ q)).
  { apply section_names_cases in Hsec.
    destruct Hsec as [-> | [-> | ->] ]; do 2 eexists; (split; [reflexivity|split; [reflexivity|]]).
    - exists (str "1"). reflexivity.
    - exists (str "1a"). reflexivity.
    - exists (str "7"). reflexivity. }
  destruct Hsplit as [x [y [Hs [Hj [q Hq]]]]].
  split; [|split; [exact Hst|]].
  - unfold section_file. rewrite Hq. rewrite <- app_assoc. exact (fullmatch_item base q).
  - rewrite Hst. unfold stem_base, stem_section. cbv zeta. change ([us] ++ sec) with (us :: sec).
    rewrite split_on_app_sep, Hs, length_app. cbn [length].
    replace (length (split_on us base) + 2 - 2) with (length (split_on us base)) by lia.
    rewrite firstn_len_app, skipn_len_app by reflexivity. rewrite join_split. auto.
Qed.

(** ** [process_file] *)

Lemma save_loop_spec : forall write_ok cfg flag base ex secs st written,
  match save_loop write_ok cfg flag base ex secs st written with
  | (st', written', failed) =>
      (failed = true <-> exists s, In s secs /\ truthy (section_value ex s) = true
                                   /\ write_ok (section_file base s) = false)
      /\ (failed = false ->
          let good := filter (fun s => truthy (section_value ex s)) secs in
          st_extracted st' = st_extracted st + length good
          /\ st_cleaned st' = st_cleaned st + (if flag then length good else 0)
          /\ written' = written ++ map (fun s => (section_file base s,
                                                  if flag then clean cfg (section_text ex s)
                                                  else section_text ex s)) good)
  end.
Proof.
  intros write_ok cfg flag base ex. induction secs as [|s rest IH]; intros st written.
  - simpl. split; [split; [discriminate|intros [s [[] _]]]|].
    intros _. rewrite app_nil_r. destruct flag; auto.
  - cbn [save_loop]. cbn [filter].
    destruct (section_value ex s) as [[|c t]|] eqn:Hv.
    + specialize (IH st written).
      destruct (save_loop write_ok cfg flag base ex rest st written) as [[st' w'] f].
      destruct IH as [IH1 IH2]. split.
      * rewrite IH1. split; intros [s' [Hs' Hr]]; exists s'; (split; [|exact Hr]).
        -- right. exact Hs'.
        -- destruct Hs' as [<-|Hs']; [rewrite Hv in Hr; destruct Hr; discriminate|exact Hs'].
      * exact IH2.
    + set (text := if flag then clean cfg (c :: t) else c :: t).
      destruct (write_ok (section_file base s)) eqn:Hw.
      * match goal with
        | |- match save_loop _ _ _ _ _ _ ?st0 ?w0 with _ => _ end =>
            specialize (IH st0 w0); destruct (save_loop write_ok cfg flag base ex rest st0 w0)
              as [[st' w'] f]
        end.
        destruct IH as [IH1 IH2]. split.
        -- rewrite IH1. split; intros [s' [Hs' Hr]].
           ++ exists s'. split; [right; exact Hs'|exact Hr].
           ++ exists s'. split; [|exact Hr].
              destruct Hs' as [<-|Hs']; [rewrite Hw in Hr; destruct Hr as [_ Hr]; discriminate|exact Hs'].
        -- intros Hf. destruct (IH2 Hf) as [E1 [E2 E3]]. cbn [st_extracted st_cleaned] in E1, E2.
           cbn [truthy length]. split; [lia|split].
           ++ destruct flag; simpl in E2 |- *; lia.
           ++ rewrite E3, <- app_assoc. cbn [map app]. unfold section_text. rewrite Hv. reflexivity.
      * split; [|discriminate]. split; [intros _|reflexivity].
        exists s. split; [left; reflexivity|]. rewrite Hv. auto.
    + specialize (IH st written).
      destruct (save_loop write_ok cfg flag base ex rest st written) as [[st' w'] f].
      destruct IH as [IH1 IH2]. split.
      * rewrite IH1. split; intros [s' [Hs' Hr]]; exists s'; (split; [|exact Hr]).
        -- right. exact Hs'.
        -- destruct Hs' as [<-|Hs']; [rewrite Hv in Hr; destruct Hr; discriminate|exact Hs'].
      * exact IH2.
Qed.

(** X16: [process_file] records the file name and its stem.  It reports
    an error exactly when [parse_file] raised or some requested section
    with non-empty text could not be written, and success exactly when
    there is no error and some requested section has non-empty text.
    When [parse_file] raised, it counts no section and writes nothing. *)
Theorem process_file_status : forall write_ok cfg flag filename extracted secs,
  let res := fst (process_file write_ok cfg flag filename extracted secs) in
  pf_filename res = filename /\ pf_base_name res = stem filename
  /\ (pf_error res = true <->
      match extracted with
      | Raised => True
      | Returned ex => exists s, In s secs /\ truthy (section_value ex s) = true
                                 /\ write_ok (section_file (stem filename) s) = false
      end)
  /\ (pf_success res = true <->
      pf_error res = false
      /\ match extracted with
         | Raised => False
         | Returned ex => exists s, In s secs /\ truthy (section_value ex s) = true
         end)
  /\ (extracted = Raised ->
      pf_sections_extracted res = 0 /\ pf_sections_cleaned res = 0
      /\ snd (process_file write_ok cfg flag filename extracted secs) = []).
Proof.
  intros write_ok cfg flag filename [ex|] secs res; unfold res, process_file.
  2:{ cbn. split; [reflexivity|split; [reflexivity|]].
      split; [tauto|split; [split; [discriminate|tauto]|auto]]. }
  pose proof (save_loop_spec write_ok cfg flag (stem filename) ex secs (PfState 0 0 []) []) as H.
  destruct (save_loop write_ok cfg flag (stem filename) ex secs (PfState 0 0 []) [])
    as [[st' w'] f]. destruct H as [H1 H2]. cbn [fst pf_filename pf_base_name pf_error pf_success].
  split; [reflexivity|split; [reflexivity|split; [exact H1|split]]];
    [|intros Hr; discriminate].
  destruct f.
  - split; [discriminate|intros [H _]; discriminate].
  - destruct (H2 eq_refl) as [E1 _]. cbn [st_extracted] in E1. rewrite E1, Nat.ltb_lt.
    set (good := filter (fun s => truthy (section_value ex s)) secs) in *.
    split.
    + intros Hlt. split; [reflexivity|]. destruct good as [|g gs] eqn:Hg; [simpl in Hlt; lia|].
      assert (Hin : In g good) by (rewrite Hg; left; reflexivity).
      unfold good in Hin. apply filter_In in Hin. eauto.
    + intros [_ [s [Hs Ht]]]. assert (Hin : In s good) by (apply filter_In; auto).
      destruct good; [destruct Hin|simpl; lia].
Qed.

Lemma process_file_outputs_eq : forall write_ok cfg flag filename ex secs,
  (forall s, In s secs -> truthy (section_value ex s) = true ->
             write_ok (section_file (stem filename) s) = true) ->
  let '(res, written) := process_file write_ok cfg flag filename (Returned ex) secs in
  let good := filter (fun s => truthy (section_value ex s)) secs in
  pf_error res = false
  /\ pf_sections_extracted res = length good
  /\ pf_sections_cleaned res = (if flag then length good else 0)
  /\ written = map (fun s => (section_file (stem filename) s,
                              if flag then clean cfg (section_text ex s) else section_text ex s)) good.
Proof.
  intros write_ok cfg flag filename ex secs Hok. unfold process_file. cbv iota.
  pose proof (save_loop_spec write_ok cfg flag (stem filename) ex secs (PfState 0 0 []) []) as H.
  destruct (save_loop write_ok cfg flag (stem filename) ex secs (PfState 0 0 []) [])
    as [[st' w'] f]. destruct H as [H1 H2].
  assert (Hf : f = false).
  { destruct f; [|reflexivity]. destruct (proj1 H1 eq_refl) as [s [Hs [Ht Hw]]].
    rewrite (Hok s Hs Ht) in Hw. discriminate. }
  subst f. destruct (H2 eq_refl) as [E1 [E2 E3]]. cbn [st_extracted st_cleaned] in E1, E2.
  cbn [pf_error pf_sections_extracted pf_sections_cleaned]. rewrite E1, E2, E3. auto.
Qed.

(** X18: after [parse_file] returned and [process_file] wrote all of a
    non-empty list of requested
    sections (each one of [item_1], [item_1a], [item_7] with non-empty
    text), a rerun with [--skip-existing] on a directory listing that
    contains the written files skips that input file. *)
Theorem process_file_then_skipped : forall cfg flag filename ex secs others,
  secs <> [] ->
  Forall (fun s => In s section_names /\ truthy (section_value ex s) = true) secs ->
  let written := snd (process_file (fun _ => true) cfg flag filename (Returned ex) secs) in
  skip_processed (get_processed_files (Some (map fst written ++ others)) secs) [filename] = [].
Proof.
  intros cfg flag filename ex secs others Hne Hall written.
  pose proof (process_file_outputs_eq (fun _ => true) cfg flag filename ex secs (fun _ _ _ => eq_refl)) as H.
  unfold written. destruct (process_file (fun _ => true) cfg flag filename (Returned ex) secs) as [res w].
  destruct H as [_ [_ [_ Hw]]]. cbn [snd].
  rewrite Forall_forall in Hall.
  rewrite filter_all in Hw by (rewrite Forall_forall; intros s Hs; apply (Hall s Hs)).
  set (listing := map fst w ++ others).
  assert (Hlist : forall s, In s secs ->
            In (section_file (stem filename) s) listing
            /\ fullmatch item_file_re (section_file (stem filename) s) = true
            /\ stem_base (stem (section_file (stem filename) s)) = stem filename
            /\ stem_section (stem (section_file (stem filename) s)) = s).
  { intros s Hs. destruct (section_file_parts (stem filename) s (proj1 (Hall s Hs)))
      as [R1 [_ [R3 R4]]].
    split; [|auto]. unfold listing. apply in_or_app. left. rewrite Hw, map_map. cbn [fst].
    apply (in_map (fun s => section_file (stem filename) s)). exact Hs. }
  assert (Hin : In (stem filename) (get_processed_files (Some listing) secs)).
  { apply (proj2 (get_processed_files_members listing secs)). split.
    - destruct secs as [|s0 secs']; [congruence|].
      destruct (Hlist s0 (or_introl eq_refl)) as [L1 [L2 [L3 _]]]. eauto.
    - intros s Hs. destruct (Hlist s Hs) as [L1 [L2 [L3 L4]]]. eauto. }
  unfold skip_processed. cbn [filter]. apply mem_str_In in Hin. rewrite Hin. reflexivity.
Qed.

(** ** The extra properties that the proofs above also use *)

(** X10: the words of the output of [_filter_short_words] are exactly
    the words of its input that pass the length-or-preserved test, in
    order. *)
Theorem filter_short_words_tokens : forall n text,
  split_ws (filter_short_words n text) = filter (keep_word n) (split_ws text).
Proof. exact filter_short_words_words. Qed.

(** X9: the words ([str.split()]) of the output of
    [_normalize_whitespace] do not depend on [max_consecutive_newlines]. *)
Theorem normalize_whitespace_same_words : forall m1 m2 text,
  split_ws (normalize_whitespace_ m1 text) = split_ws (normalize_whitespace_ m2 text).
Proof. exact normalize_whitespace_words. Qed.

(** X12: the words of the output of [clean] are the words of the text
    reached before the short-word filter (after the HTML, boilerplate,
    table, header and whitespace stages) that pass that filter's test;
    the final strip removes no word. *)
Theorem clean_words : forall cfg text,
  split_ws (clean cfg text)
  = match text with
    | [] => []
    | _ :: _ =>
        let text := remove_boilerplate (remove_html_artifacts text) in
        let text := if remove_tables cfg then remove_tables_ text else text in
        let text := if remove_headers cfg then remove_headers_footers text else text in
        let text := if normalize_whitespace cfg
                    then normalize_whitespace_ (max_consecutive_newlines cfg) text else text in
        filter (keep_word (min_word_length cfg)) (split_ws text)
    end.
Proof. exact clean_words_eq. Qed.

(** X14: [get_processed_files] returns each base name once, and returns a
    base name exactly when some listed file matching [*_item_*.txt] has
    that base name and, for each requested section, some such file has
    that base name and that section. *)
Theorem get_processed_files_spec : forall names secs,
  NoDup (get_processed_files (Some names) secs)
  /\ forall b, In b (get_processed_files (Some names) secs) <->
     (exists n, In n names /\ fullmatch item_file_re n = true /\ stem_base (stem n) = b)
     /\ forall s, In s secs ->
          exists n, In n names /\ fullmatch item_file_re n = true
                    /\ stem_base (stem n) = b /\ stem_section (stem n) = s.
Proof. exact get_processed_files_members. Qed.

(** X15: for a section of [item_1], [item_1a] or [item_7], the output
    file name [process_file] writes matches the glob [*_item_*.txt], has
    stem [base_section], and [get_processed_files] parses it back into the
    same base name and section. *)
Theorem section_file_round_trip : forall base sec, In sec section_names ->
  fullmatch item_file_re (section_file base sec) = true
  /\ stem (section_file base sec) = base ++ [us] ++ sec
  /\ stem_base (stem (section_file base sec)) = base
  /\ stem_section (stem (section_file base sec)) = sec.
Proof. exact section_file_parts. Qed.

(** X17: when [parse_file] returns and every write of a non-empty
    requested section succeeds, [process_file] reports no error, counts the requested sections with
    non-empty text as extracted (and as cleaned when cleaning is on, else
    none), and writes, in the requested order, one file per such section
    holding its text, cleaned when cleaning is on. *)
Theorem process_file_outputs : forall write_ok cfg flag filename ex secs,
  (forall s, In s secs -> truthy (section_value ex s) = true ->
             write_ok (section_file (stem filename) s) = true) ->
  let '(res, written) := process_file write_ok cfg flag filename (Returned ex) secs in
  let good := filter (fun s => truthy (section_value ex s)) secs in
  pf_error res = false
  /\ pf_sections_extracted res = length good
  /\ pf_sections_cleaned res = (if flag then length good else 0)
  /\ written = map (fun s => (section_file (stem filename) s,
                              if flag then clean cfg (section_text ex s) else section_text ex s)) good.
Proof. exact process_file_outputs_eq. Qed.

(** ** Sections argument and concrete instances *)

(** X19: parsing the [--sections] argument splits it on commas and
    strips each piece: for comma-free pieces joined by commas, it returns
    the stripped pieces. *)
Theorem parse_sections_join : forall pieces, pieces <> [] ->
  Forall (fun p => ~ In ","%char p) pieces ->
  parse_sections (join [","%char] pieces) = map strip pieces.
Proof. intros pieces Hne Hp. unfold parse_sections. rewrite split_join by assumption. reflexivity. Qed.

Lemma parse_sections_join_witness :
  parse_sections (join [","%char] [str "item_1"; str " item_7 "]) = [str "item_1"; str "item_7"].
Proof.
  apply (parse_sections_join [str "item_1"; str " item_7 "]); [discriminate|].
  repeat constructor; simpl; intuition discriminate.
Defined.

Lemma extract_metadata_round_trip_witness :
  extract_metadata_from_filename (str "0000001750" ++ us :: str "2020" ++ str "_10K" ++ str ".html")
  = (Some (str "0000001750"), Some (digits_value (str "2020"))).
Proof.
  apply extract_metadata_round_trip; [reflexivity| |reflexivity|];
    repeat constructor.
Defined.

Lemma section_file_round_trip_witness :
  fullmatch item_file_re (section_file (str "0000001750_2020_10K") (str "item_1a")) = true
  /\ stem (section_file (str "0000001750_2020_10K") (str "item_1a")) = str "0000001750_2020_10K_item_1a"
  /\ stem_base (stem (section_file (str "0000001750_2020_10K") (str "item_1a"))) = str "0000001750_2020_10K"
  /\ stem_section (stem (section_file (str "0000001750_2020_10K") (str "item_1a"))) = str "item_1a".
Proof.
  apply (section_file_round_trip (str "0000001750_2020_10K") (str "item_1a")).
  right. left. reflexivity.
Defined.

Lemma process_file_outputs_witness :
  let '(res, written) := process_file (fun _ => true) default_cleaner true
                           (str "0000001750_2020_10K.html") (Returned (Sections (Some (str "Our business.")) None None)) [str "item_1"; str "item_7"] in
  let good := filter (fun s => truthy (section_value (Sections (Some (str "Our business.")) None None) s)) [str "item_1"; str "item_7"] in
  pf_error res = false
  /\ pf_sections_extracted res = length good
  /\ pf_sections_cleaned res = length good
  /\ written = map (fun s => (section_file (stem (str "0000001750_2020_10K.html")) s,
                              clean default_cleaner (section_text (Sections (Some (str "Our business.")) None None) s))) good.
Proof.
  apply (process_file_outputs (fun _ => true) default_cleaner true
           (str "0000001750_2020_10K.html") (Sections (Some (str "Our business.")) None None) [str "item_1"; str "item_7"]).
  intros; reflexivity.
Defined.

Lemma process_file_then_skipped_witness :
  skip_processed
    (get_processed_files
       (Some (map fst (snd (process_file (fun _ => true) default_cleaner true
                              (str "0000001750_2020_10K.html") (Returned (Sections (Some (str "Our business.")) None None)) [str "item_1"]))
              ++ [str "0000001750_2019_10K_item_1.txt"]))
       [str "item_1"])
    [str "0000001750_2020_10K.html"] = [].
Proof.
  apply (process_file_then_skipped default_cleaner true (str "0000001750_2020_10K.html")
           (Sections (Some (str "Our business.")) None None) [str "item_1"] [str "0000001750_2019_10K_item_1.txt"]);
    [discriminate|].
  repeat constructor.
Defined.
